(** * update-article-link-map: a shallow embedding of
    scripts/update-article-link-map.py

  The script fetches a JSON mapping (file path -> article id) from a remote
  repository, renders it as the entries of a TypeScript map literal and
  splices them into the [ARTICLE_LINK_MAP] declaration of a configuration
  file.

  Python [str] values are modelled by [string]; a file is the text that
  [Path.read_text] returns for it; the file system is a finite map from
  paths to texts.  What git delivers and what [json.loads] accepts are
  parameters of the model.  JSON numbers with a fraction or an exponent
  are not modelled. *)

From stdpp Require Import gmap strings sorting.
From Stdlib Require Import Ascii Lia DecimalString.

Local Arguments String.append : simpl nomatch.

(** ** Python strings *)

Module Str.

Definition nl : string := String "010"%char "".

Fixpoint drop (n : nat) (s : string) : string :=
  match n, s with
  | S k, String _ s' => drop k s'
  | _, _ => s
  end.

(** [s.partition(sep)] without the separator in the result:
    the text before the first occurrence of [sep] and the text after it,
    or [None] when [sep] does not occur in [s]. *)
Fixpoint partition (sep s : string) : option (string * string) :=
  if String.prefix sep s then Some ("", drop (String.length sep) s)
  else match s with
       | "" => None
       | String c s' =>
           match partition sep s' with
           | Some (before, after) => Some (String c before, after)
           | None => None
           end
       end.

(** [sub in s] *)
Definition contains (sub s : string) : bool :=
  bool_decide (is_Some (partition sub s)).

(** Left-to-right scanning shared by [str.replace] and [re.sub]: [next]
    finds the first occurrence in the text that is left, giving the text
    before it, what was found and the text after it; the scan goes on in
    the text after it.  The result lists the occurrences, each with the
    text that precedes it, and the text after the last one.

    [fuel] bounds the number of occurrences; [scan] gives it the length
    of the text, which is enough when every occurrence is followed by a
    shorter text ([scan_Some]). *)
Section Scan.
Context {M : Type} (next : string -> option (string * M * string)).

Fixpoint scan_fuel (fuel : nat) (s : string) : list (string * M) * string :=
  match next s with
  | None => ([], s)
  | Some (before, m, after) =>
      match fuel with
      | 0 => ([(before, m)], after)
      | S n => let '(l, t) := scan_fuel n after in ((before, m) :: l, t)
      end
  end.

Definition scan (s : string) : list (string * M) * string :=
  scan_fuel (String.length s) s.

(** The text with every occurrence replaced by [repl] of it. *)
Definition splice (repl : M -> string) (r : list (string * M) * string) : string :=
  foldr (fun '(before, m) acc => before +:+ repl m +:+ acc) r.2 r.1.
End Scan.

(** [s.replace(old, new)] for a non-empty [old]. *)
Definition replace (old new s : string) : string :=
  splice (fun _ : unit => new)
    (scan (fun s => match partition old s with
                    | Some (before, after) => Some (before, tt, after)
                    | None => None
                    end) s).

(** [sep.join(l)] *)
Definition join (sep : string) (l : list string) : string := String.concat sep l.

End Str.

(** ** Regular expressions of the shape [(opening)(.*?)(closing)], compiled
     with [re.DOTALL], where [opening] and [closing] are literal texts *)

Module Re.
Import Str.

Record pattern := { opening : string; closing : string }.

(** The three groups of a match. *)
Record groups := { group1 : string; group2 : string; group3 : string }.

(** [m.group(0)], the text of the match. *)
Definition group0 (m : groups) : string := group1 m +:+ group2 m +:+ group3 m.

(** A match that starts at the first character of [s]: after [opening],
    the lazy [.*?] stops at the first [closing].  Gives group 2 and the
    text after the match. *)
Definition match_at (p : pattern) (s : string) : option (string * string) :=
  if String.prefix (opening p) s
  then partition (closing p) (drop (String.length (opening p)) s)
  else None.

(** [p.search(s)]: the leftmost match, with the text before and after it. *)
Fixpoint search (p : pattern) (s : string) : option (string * groups * string) :=
  match match_at p s with
  | Some (body, post) =>
      Some ("", {| group1 := opening p; group2 := body; group3 := closing p |}, post)
  | None =>
      match s with
      | "" => None
      | String c s' =>
          match search p s' with
          | Some (pre, m, post) => Some (String c pre, m, post)
          | None => None
          end
      end
  end.

(** [p.finditer(s)]: the non-overlapping matches from left to right. *)
Definition finditer (p : pattern) (s : string) : list (string * groups) * string :=
  scan (search p) s.

Definition count (p : pattern) (s : string) : nat := length (finditer p s).1.

(** [p.sub(repl, s)] with a function [repl]: every match is replaced. *)
Definition sub (p : pattern) (repl : groups -> string) (s : string) : string :=
  splice repl (finditer p s).

End Re.

(** ** Exceptions, results and the file system *)

Module Py.

Inductive exn :=
| ValueError (msg : string)
| JSONDecodeError (msg : string)            (* a subclass of ValueError *)
| UnicodeDecodeError                        (* a subclass of ValueError *)
| AttributeError (msg : string)
| TypeError
| FileNotFoundError (msg : string)
| CalledProcessError (stderr : string)
| SystemExit (code : nat).

Inductive result (A : Type) :=
| Ok (a : A)
| Raise (e : exn).
Arguments Ok {A} a.
Arguments Raise {A} e.

(** [isinstance(e, ValueError)] *)
Definition is_ValueError (e : exn) : bool :=
  match e with
  | ValueError _ | JSONDecodeError _ | UnicodeDecodeError => true
  | _ => false
  end.

(** A computation reads and writes the file system and returns or raises. *)
Definition io (A : Type) : Type := gmap string string -> result A * gmap string string.

Definition ret {A} (a : A) : io A := fun fs => (Ok a, fs).
Definition raise {A} (e : exn) : io A := fun fs => (Raise e, fs).
Definition lift {A} (r : result A) : io A := fun fs => (r, fs).

Definition bind {A B} (c : io A) (k : A -> io B) : io B :=
  fun fs =>
    match c fs with
    | (Ok a, fs') => k a fs'
    | (Raise e, fs') => (Raise e, fs')
    end.

(** [try: body / except <the exceptions caught>: handler] *)
Definition try_except {A} (body : io A) (caught : exn -> bool) (handler : exn -> io A) : io A :=
  fun fs =>
    match body fs with
    | (Raise e, fs') => if caught e then handler e fs' else (Raise e, fs')
    | r => r
    end.

Definition sys_exit {A} (code : nat) : io A := raise (SystemExit code).

(** [Path.exists], [Path.read_text] and [Path.write_text] *)
Definition path_exists (p : string) : io bool :=
  fun fs => (Ok (bool_decide (is_Some (fs !! p))), fs).

Definition read_text (p : string) : io string :=
  fun fs =>
    match fs !! p with
    | Some text => (Ok text, fs)
    | None => (Raise (FileNotFoundError p), fs)
    end.

Definition write_text (p : string) (data : string) : io unit :=
  fun fs => (Ok tt, <[p := data]> fs).

(** The exit status of the process that runs [c]: an exception that nothing
    catches ends the interpreter with status 1. *)
Definition exit_status {A} (r : result A) : nat :=
  match r with
  | Ok _ => 0
  | Raise (SystemExit code) => code
  | Raise _ => 1
  end.

End Py.

Notation "'do' x <- c ; k" := (Py.bind c (fun x => k))
  (at level 10, x name, c at level 100, k at level 200, only parsing).

(** ** The script *)

Module Script.
Import Str Py.

(** *** Configuration *)

Definition REPO_URL : string := "https://dub.duckduckgo.com/duckduckgo/help-pages-cms.git".
Definition FILE_PATH : string := "scripts/zendesk-sync/zendesk-mapping.json".
Definition BRANCH : string := "main".

(** *** The fetched document

    An article id is what the mapping file gives for a path: a text or
    an integer (other JSON values in that place are not modelled).  The
    script never converts it: it is the key of [article_map] and the key
    of the sort as it is, and only the f-string of an entry turns it into
    text. *)
Inductive ident :=
| IStr (s : string)
| IInt (n : Z).

#[global] Instance ident_eq_dec : EqDecision ident.
Proof. solve_decision. Defined.

#[global] Instance ident_countable : Countable ident.
Proof.
  refine (inj_countable'
            (fun i => match i with IStr s => inl s | IInt n => inr n end)
            (fun x => match x with inl s => IStr s | inr n => IInt n end) _).
  by intros [].
Defined.

(** The values of the keys of the document: a text, or a mapping from
    paths to article ids whose items are listed in the order of the
    document (the order in which [dict.items] gives them). *)
Inductive value :=
| JStr (s : string)
| JDict (items : list (string * ident)).

(** What [json.loads] returns: a dict, or a value of another Python type
    ([list], [str], [int], ...), of which only the name of the type
    matters to the script. *)
Inductive parsed :=
| Object (members : gmap string value)
| NotObject (type_name : string).

(** What [Path.read_text] finds in a file: a text, or bytes that the
    decoding refuses. *)
Inductive contents :=
| Text (text : string)
| Undecodable.

(** *** [generate_article_link_map] *)

(** [files = mapping_data.get("files", {})] followed by [files.items()] *)
Definition files_items (mapping_data : gmap string value) : result (list (string * ident)) :=
  match mapping_data !! "files" with
  | None => Ok []
  | Some (JDict items) => Ok items
  | Some (JStr _) => Raise (AttributeError "'str' object has no attribute 'items'")
  end.

(** [f"/{file_path.replace('.mdx', '')}"] *)
Definition target_path (file_path : string) : string :=
  let clean_path := replace ".mdx" "" file_path in
  "/" +:+ clean_path.

(** [article_map[article_id] = f"/{clean_path}"], the body of the loop. *)
Definition set_article (m : gmap ident string) (item : string * ident) : gmap ident string :=
  let '(file_path, article_id) := item in
  <[article_id := target_path file_path]> m.

(** The loop that fills [article_map], item after item: a later item
    overwrites an earlier one with the same article id. *)
Definition article_map (items : list (string * ident)) : gmap ident string :=
  foldl set_article ∅ items.

(** [a < b] is defined between texts and between integers; between a text
    and an integer it raises [TypeError]. *)
Definition same_type (a b : ident) : bool :=
  match a, b with
  | IStr _, IStr _ | IInt _, IInt _ => true
  | _, _ => false
  end.

(** The keys that a sort can compare: none, one, or all of one type.  With
    two keys of different types every sort comes to compare a text with an
    integer. *)
Definition comparable (ids : list ident) : bool :=
  match ids with
  | [] => true
  | a :: rest => forallb (same_type a) rest
  end.

(** The order of [sorted(..., key=lambda x: x[0])] between keys of one
    type: the order of [str], character by character, and the order of
    [int].  Integers are put before texts to make the relation total; the
    script never gets to see that part, [comparable] being asked first. *)
Definition ident_le (a b : ident) : Prop :=
  match a, b with
  | IStr s, IStr t => String.le s t
  | IInt n, IInt m => (n <= m)%Z
  | IInt _, IStr _ => True
  | IStr _, IInt _ => False
  end.

Definition key_le (x y : ident * string) : Prop := ident_le x.1 y.1.

#[global] Instance key_le_dec : RelDecision key_le.
Proof. intros [[s|n] ?] [[t|m] ?]; unfold key_le, ident_le; simpl; apply _. Defined.

(** The list that [sorted(article_map.items(), ...)] returns when it
    returns.  The keys of a dict are distinct, so the sorted list does not
    depend on the order in which the dict gives its items. *)
Definition sorted_items (items : list (string * ident)) : list (ident * string) :=
  merge_sort key_le (map_to_list (article_map items)).

(** [f"{article_id}"]: a text as it is, an integer in decimal. *)
Definition str_of (article_id : ident) : string :=
  match article_id with
  | IStr s => s
  | IInt n => NilZero.string_of_int (Z.to_int n)
  end.

(** [f"  '{article_id}': '{path}'"] *)
Definition entry (item : ident * string) : string :=
  let '(article_id, path) := item in
  "  '" +:+ str_of article_id +:+ "': '" +:+ path +:+ "'".

Definition generate_article_link_map (mapping_data : gmap string value) : result string :=
  match files_items mapping_data with
  | Raise e => Raise e
  | Ok items =>
      if comparable (map_to_list (article_map items)).*1
      then
        let entries := entry <$> sorted_items items in
        Ok (join ("," +:+ nl) entries)
      else Raise TypeError
  end.

(** The call [generate_article_link_map(mapping_data)] of [main]: the
    function is declared for a dict, and on anything else its first line,
    [mapping_data.get], raises. *)
Definition generate_for (mapping_data : parsed) : result string :=
  match mapping_data with
  | Object members => generate_article_link_map members
  | NotObject type_name =>
      Raise (AttributeError ("'" +:+ type_name +:+ "' object has no attribute 'get'"))
  end.

(** *** [update_zendesk_config] *)

Definition OPENING : string := "export const ARTICLE_LINK_MAP: Record<string, string> = {".

Definition pattern : Re.pattern := {| Re.opening := OPENING; Re.closing := "} as const;" |}.
Definition pattern_alt : Re.pattern := {| Re.opening := OPENING; Re.closing := "};" |}.

Definition replace_map (new_map_entries : string) (m : Re.groups) : string :=
  Re.group1 m +:+ nl +:+ new_map_entries +:+ nl +:+ Re.group3 m.

Definition replace_map_alt (new_map_entries : string) (m : Re.groups) : string :=
  Re.group1 m +:+ nl +:+ new_map_entries +:+ nl +:+ "} as const;".

(** The text that [update_zendesk_config] computes from the text of the
    file: the two substitutions, tried in turn. *)
Definition new_content (content new_map_entries : string) : string :=
  let new_content := Re.sub pattern (replace_map new_map_entries) content in
  if String.eqb new_content content
  then Re.sub pattern_alt (replace_map_alt new_map_entries) content
  else new_content.

(** The text to write, or the [ValueError]. *)
Definition patch (content new_map_entries : string) : result string :=
  let new_content := new_content content new_map_entries in
  if String.eqb new_content content
  then Raise (ValueError "Could not find ARTICLE_LINK_MAP in config file")
  else Ok new_content.

Definition update_zendesk_config (config_path : string) (new_map_entries : string) : io unit :=
  do content <- read_text config_path;
  do new_content <- lift (patch content new_map_entries);
  write_text config_path new_content.

(** *** [fetch_file_with_sparse_checkout] and [main] *)

Section Remote.

(** [PROJECT_ROOT], the directory above the one of the script. *)
Variable PROJECT_ROOT : string.

(** The directory that [tempfile.mkdtemp] creates. *)
Variable tmp_dir : string.

(** [subprocess.run(args, check=True, capture_output=True)]: [None] when the
    command exits with status 0, its captured error output otherwise. *)
Variable run : list string -> option string.

(** What a file of the working tree holds after the checkout, if the file
    is there. *)
Variable checked_out : string -> option contents.

(** [json.loads]: the value, or [None] for a text that is not JSON. *)
Variable json_loads : string -> option parsed.

Definition ZENDESK_CONFIG : string := PROJECT_ROOT +:+ "/src/config/zendesk.ts".

Definition check_run (args : list string) : result unit :=
  match run args with
  | None => Ok tt
  | Some stderr => Raise (CalledProcessError stderr)
  end.

(** The temporary directory is created and removed inside the call; the
    files the script works on are not in it. *)
Definition fetch_file_with_sparse_checkout (repo_url file_path branch : string)
  : result parsed :=
  match check_run ["git"; "clone"; "--depth=1"; "--filter=blob:none"; "--sparse";
                   "--branch"; branch; repo_url; tmp_dir] with
  | Raise e => Raise e
  | Ok _ =>
  match check_run ["git"; "-C"; tmp_dir; "sparse-checkout"; "set"; "--no-cone"; file_path] with
  | Raise e => Raise e
  | Ok _ =>
  match check_run ["git"; "-C"; tmp_dir; "checkout"] with
  | Raise e => Raise e
  | Ok _ =>
  let target := tmp_dir +:+ "/" +:+ file_path in
  match checked_out target with
  | None => Raise (FileNotFoundError ("File " +:+ file_path +:+ " not found after checkout"))
  | Some Undecodable => Raise UnicodeDecodeError
  | Some (Text text) =>
      match json_loads text with
      | None => Raise (JSONDecodeError text)
      | Some data => Ok data
      end
  end end end end.

Definition fetch_error (e : exn) : bool :=
  match e with
  | CalledProcessError _ | FileNotFoundError _ | JSONDecodeError _ => true
  | _ => false
  end.

Definition main : io unit :=
  do present <- path_exists ZENDESK_CONFIG;
  if negb present then sys_exit 1 else
  do mapping_data <-
    try_except (lift (fetch_file_with_sparse_checkout REPO_URL FILE_PATH BRANCH))
      fetch_error (fun _ => sys_exit 1);
  do map_entries <- lift (generate_for mapping_data);
  try_except (update_zendesk_config ZENDESK_CONFIG map_entries)
    is_ValueError (fun _ => sys_exit 1).

End Remote.

End Script.

(** ** Notions used to state the properties *)

Module Notions.
Import Str Py Script.

(** The text contains a region that the pattern matches: the opening
    followed, anywhere later, by the closing. *)
Definition recognizable (p : Re.pattern) (s : string) : Prop :=
  exists pre body post, s = pre +:+ Re.opening p +:+ body +:+ Re.closing p +:+ post.

(** The text starts with [/] and goes on with something else. *)
Definition single_leading_separator (s : string) : bool :=
  match s with
  | String "/" rest => negb (String.prefix "/" rest)
  | _ => false
  end.

(** The entries of the block for one article id. *)
Definition entries_for (article_id : ident) (l : list (ident * string)) : list (ident * string) :=
  filter (fun item => item.1 = article_id) l.

(** Ascending order of the keys, as the sort compares them. *)
Definition ident_lt (a b : ident) : Prop := ident_le a b /\ a <> b.

Definition ascending (l : list (ident * string)) : Prop :=
  StronglySorted (fun x y => ident_lt x.1 y.1) l.

(** Ascending lexicographic order of the article ids as the block shows
    them. *)
Definition lexicographic (l : list (ident * string)) : Prop :=
  StronglySorted (fun x y => String.ltb (str_of x.1) (str_of y.1) = true) l.


(** Texts of the destination file used in the examples. *)
Definition old_block : string :=
  OPENING +:+ nl +:+ "  '9': '/old'" +:+ nl +:+ "} as const;".

Definition new_block : string :=
  OPENING +:+ nl +:+ "  '1': '/new'" +:+ nl +:+ "} as const;".

Definition new_entries : string := "  '1': '/new'".

(** Two declarations of the map in one file. *)
Definition two_blocks : string :=
  old_block +:+ nl +:+ OPENING +:+ nl +:+ "  '8': '/older'" +:+ nl +:+ "} as const;" +:+ nl.

Definition two_blocks_patched : string :=
  new_block +:+ nl +:+ new_block +:+ nl.

(** A file whose map already has the new entries, followed by another
    declaration. *)
Definition other_declaration : string :=
  "export const OTHER = {" +:+ nl +:+ "  a: 1," +:+ nl +:+ "};" +:+ nl.

Definition in_sync_file : string :=
  "// links" +:+ nl +:+ new_block +:+ nl +:+ other_declaration.

(** The document of scenario A and a file system that holds the
    destination file. *)
Definition scenario_A_files : list (string * ident) :=
  [("guide/setup.mdx", IStr "1001"); ("guide/faq.mdx", IStr "1002")].

Definition scenario_A_document : gmap string value :=
  {[ "files" := JDict scenario_A_files ]}.

Definition repo_fs (text : string) : gmap string string :=
  {[ "/repo/src/config/zendesk.ts" := text; "/repo/src/index.ts" := "export {};" ]}.

End Notions.

Import Str Py Script Notions.

(** * Properties *)

(** ** Texts *)

Section StringFacts.
Implicit Types s t u sep : string.

Lemma string_app_cons c s t : String c s +:+ t = String c (s +:+ t).
Proof. reflexivity. Qed.

Lemma string_app_nil_r s : s +:+ "" = s.
Proof. induction s as [|c s IH]; simpl; [done|]. by rewrite IH. Qed.

Lemma string_app_assoc s t u : (s +:+ t) +:+ u = s +:+ t +:+ u.
Proof. induction s as [|c s IH]; simpl; [done|]. by rewrite IH. Qed.

Lemma string_length_app s t : String.length (s +:+ t) = String.length s + String.length t.
Proof. induction s as [|c s IH]; simpl; [done|]. by rewrite IH. Qed.

Lemma prefix_app s t : String.prefix s (s +:+ t) = true.
Proof.
  induction s as [|c s IH]; simpl; [by destruct t|].
  destruct (ascii_dec c c); [done|congruence].
Qed.

Lemma prefix_inv s t : String.prefix s t = true -> t = s +:+ drop (String.length s) t.
Proof.
  revert t. induction s as [|c s IH]; intros t H; [by destruct t|].
  destruct t as [|d t]; [done|]. simpl in H.
  destruct (ascii_dec c d) as [->|]; [|done].
  simpl. f_equal. by apply IH.
Qed.

Lemma drop_app s t : drop (String.length s) (s +:+ t) = t.
Proof. induction s as [|c s IH]; simpl; [by destruct t|done]. Qed.

Lemma partition_sound sep s before after :
  partition sep s = Some (before, after) -> s = before +:+ sep +:+ after.
Proof.
  revert before after. induction s as [|c s IH]; intros before after.
  - destruct sep; [|done]. by intros [= <- <-].
  - cbn [partition]. destruct (String.prefix sep (String c s)) eqn:Hp.
    + intros [= <- <-]. exact (prefix_inv _ _ Hp).
    + destruct (partition sep s) as [[b a]|]; [|done].
      intros [= <- <-]. simpl. f_equal. by apply IH.
Qed.

Lemma partition_complete sep before after :
  is_Some (partition sep (before +:+ sep +:+ after)).
Proof.
  induction before as [|c b IH].
  - change ("" +:+ sep +:+ after) with (sep +:+ after).
    destruct (sep +:+ after) eqn:E; cbn [partition]; rewrite <- ?E, prefix_app; eauto.
  - rewrite string_app_cons. cbn [partition]. destruct (String.prefix sep _); [eauto|].
    destruct IH as [[b' a'] ->]. eauto.
Qed.

Lemma partition_None sep s before after :
  partition sep s = None -> s <> before +:+ sep +:+ after.
Proof.
  intros H ->. destruct (partition_complete sep before after) as [? H']. congruence.
Qed.

End StringFacts.

(** ** Scanning: the fuel that [scan] gives is enough *)

Section ScanFacts.
Context {M : Type} (next : string -> option (string * M * string)).
Hypothesis next_shrinks : forall s before m after,
  next s = Some (before, m, after) -> String.length after < String.length s.

Lemma scan_fuel_enough n s :
  String.length s <= n -> scan_fuel next n s = scan next s.
Proof.
  unfold scan. revert s.
  induction n as [n IH] using lt_wf_ind. intros s Hn.
  destruct n as [|n], (String.length s) as [|k] eqn:Hk; try lia; [done| |].
  - simpl. destruct (next s) as [[[b m] a]|] eqn:Hs; [|done].
    apply next_shrinks in Hs. lia.
  - simpl. destruct (next s) as [[[b m] a]|] eqn:Hs; [|done].
    apply next_shrinks in Hs.
    rewrite (IH n) by lia. by rewrite (IH k) by lia.
Qed.

Lemma scan_None s : next s = None -> scan next s = ([], s).
Proof. unfold scan. intros H. destruct (String.length s); simpl; by rewrite H. Qed.

Lemma scan_Some s before m after :
  next s = Some (before, m, after) ->
  scan next s = ((before, m) :: (scan next after).1, (scan next after).2).
Proof.
  intros H. pose proof (next_shrinks _ _ _ _ H) as Hlt. unfold scan at 1.
  destruct (String.length s) as [|n]; [lia|]. simpl. rewrite H.
  rewrite scan_fuel_enough by lia. by destruct (scan next after).
Qed.

Lemma splice_None repl s : next s = None -> splice repl (scan next s) = s.
Proof. intros H. by rewrite scan_None. Qed.

Lemma splice_Some repl s before m after :
  next s = Some (before, m, after) ->
  splice repl (scan next s) = before +:+ repl m +:+ splice repl (scan next after).
Proof. intros H. by rewrite (scan_Some _ _ _ _ H). Qed.

End ScanFacts.

(** ** [str.replace] *)

Section ReplaceFacts.
Variables old new : string.
Hypothesis old_nonempty : old <> "".

Let next_old (s : string) : option (string * unit * string) :=
  match partition old s with
  | Some (before, after) => Some (before, tt, after)
  | None => None
  end.

Lemma next_old_shrinks s before m after :
  next_old s = Some (before, m, after) -> String.length after < String.length s.
Proof.
  unfold next_old. destruct (partition old s) as [[b a]|] eqn:H; [|done].
  intros [= <- _ <-]. apply partition_sound in H as ->.
  rewrite !string_length_app. destruct old; [done|simpl; lia].
Qed.

Lemma replace_None s : partition old s = None -> replace old new s = s.
Proof.
  intros H. unfold replace. apply splice_None. by rewrite H.
Qed.

Lemma replace_Some s before after :
  partition old s = Some (before, after) ->
  replace old new s = before +:+ new +:+ replace old new after.
Proof.
  intros H. unfold replace.
  rewrite (splice_Some _ next_old_shrinks _ s before tt after); [done|].
  unfold next_old. by rewrite H.
Qed.

End ReplaceFacts.

(** ** [re.search] and [re.sub] *)

Section ReFacts.
Variable p : Re.pattern.
Hypothesis opening_nonempty : Re.opening p <> "".

Lemma match_at_sound s body post :
  Re.match_at p s = Some (body, post) ->
  s = Re.opening p +:+ body +:+ Re.closing p +:+ post.
Proof.
  unfold Re.match_at. destruct (String.prefix _ s) eqn:Hp; [|done].
  intros H%partition_sound. apply prefix_inv in Hp. congruence.
Qed.

Lemma match_at_complete body post :
  is_Some (Re.match_at p (Re.opening p +:+ body +:+ Re.closing p +:+ post)).
Proof.
  unfold Re.match_at. rewrite prefix_app, drop_app. apply partition_complete.
Qed.

Lemma search_sound s pre m post :
  Re.search p s = Some (pre, m, post) ->
  Re.group1 m = Re.opening p /\ Re.group3 m = Re.closing p /\
  s = pre +:+ Re.opening p +:+ Re.group2 m +:+ Re.closing p +:+ post.
Proof.
  revert pre. induction s as [|c s IH]; intros pre; cbn [Re.search].
  - destruct (Re.match_at p "") as [[b a]|] eqn:Hm; [|done].
    intros [= <- <- <-]. apply match_at_sound in Hm. done.
  - destruct (Re.match_at p (String c s)) as [[b a]|] eqn:Hm.
    + intros [= <- <- <-]. apply match_at_sound in Hm. done.
    + destruct (Re.search p s) as [[[pre' m'] post']|]; [|done].
      intros [= <- <- <-]. destruct (IH pre' eq_refl) as (? & ? & ->). done.
Qed.

Lemma search_shrinks s pre m post :
  Re.search p s = Some (pre, m, post) -> String.length post < String.length s.
Proof.
  intros (_ & _ & ->)%search_sound. rewrite !string_length_app.
  destruct (Re.opening p); [done|simpl; lia].
Qed.

Lemma search_complete pre body post :
  is_Some (Re.search p (pre +:+ Re.opening p +:+ body +:+ Re.closing p +:+ post)).
Proof.
  induction pre as [|c pre IH].
  - change ("" +:+ ?x) with x.
    destruct (match_at_complete body post) as [[b a] H].
    destruct (_ +:+ _) eqn:E; cbn [Re.search]; rewrite H; eauto.
  - rewrite string_app_cons. cbn [Re.search]. destruct (Re.match_at p _) as [[b a]|]; [eauto|].
    destruct IH as [[[pre' m'] post'] ->]. eauto.
Qed.

Lemma sub_None repl s : Re.search p s = None -> Re.sub p repl s = s.
Proof. apply splice_None. Qed.

Lemma sub_Some repl s pre m post :
  Re.search p s = Some (pre, m, post) ->
  Re.sub p repl s = pre +:+ repl m +:+ Re.sub p repl post.
Proof. apply splice_Some, search_shrinks. Qed.

Lemma count_None s : Re.search p s = None -> Re.count p s = 0.
Proof. intros H. unfold Re.count, Re.finditer. by rewrite scan_None. Qed.

Lemma count_Some s pre m post :
  Re.search p s = Some (pre, m, post) -> Re.count p s = S (Re.count p post).
Proof.
  intros H. unfold Re.count, Re.finditer.
  by rewrite (scan_Some _ search_shrinks _ _ _ _ H).
Qed.

Lemma count_0 s : Re.count p s = 0 <-> Re.search p s = None.
Proof.
  split; [|apply count_None].
  destruct (Re.search p s) as [[[pre m] post]|] eqn:H; [|done].
  by rewrite (count_Some _ _ _ _ H).
Qed.

(** The matches that [finditer] lists, with the texts between them, make up
    the text. *)
Lemma finditer_decomposes s : splice Re.group0 (Re.finditer p s) = s.
Proof.
  remember (String.length s) as n eqn:Hn. revert s Hn.
  induction n as [n IH] using lt_wf_ind. intros s ->. unfold Re.finditer.
  destruct (Re.search p s) as [[[pre m] post]|] eqn:H; [|by apply splice_None].
  rewrite (splice_Some _ search_shrinks _ _ _ _ _ H).
  fold (Re.finditer p post). rewrite (IH _ (search_shrinks _ _ _ _ H) post eq_refl).
  apply search_sound in H as (Hg1 & Hg3 & ->). unfold Re.group0.
  by rewrite Hg1, Hg3, !string_app_assoc.
Qed.

End ReFacts.

(** ** The patch *)

Lemma pattern_opening : Re.opening pattern <> "".
Proof. done. Qed.

Lemma pattern_alt_opening : Re.opening pattern_alt <> "".
Proof. done. Qed.

Lemma eqb_false s t : s <> t -> String.eqb s t = false.
Proof. apply String.eqb_neq. Qed.

(** How [update_zendesk_config] follows from [patch]. *)
Lemma update_zendesk_config_patch config_path g fs content :
  fs !! config_path = Some content ->
  update_zendesk_config config_path g fs =
    match patch content g with
    | Ok new => (Ok tt, <[config_path := new]> fs)
    | Raise e => (Raise e, fs)
    end.
Proof.
  intros H. unfold update_zendesk_config, bind, read_text, lift, write_text.
  rewrite H. by destruct (patch content g).
Qed.

Lemma patch_not_found content g :
  Re.search pattern content = None ->
  Re.search pattern_alt content = None ->
  patch content g = Raise (ValueError "Could not find ARTICLE_LINK_MAP in config file").
Proof.
  intros H1 H2. unfold patch, new_content.
  rewrite (sub_None _ _ _ H1), String.eqb_refl, (sub_None _ _ _ H2).
  by rewrite String.eqb_refl.
Qed.

(** When the first substitution changes the text, its result is written. *)
Lemma patch_strict content g :
  Re.sub pattern (replace_map g) content <> content ->
  patch content g = Ok (Re.sub pattern (replace_map g) content).
Proof.
  intros H. unfold patch, new_content. by rewrite !(eqb_false _ _ H).
Qed.

(** The text of the first match of the looser form, rewritten. *)
Lemma sub_alt_Some content g pre m post :
  Re.search pattern_alt content = Some (pre, m, post) ->
  Re.sub pattern_alt (replace_map_alt g) content =
    pre +:+ OPENING +:+ nl +:+ g +:+ nl +:+ "} as const;" +:+
    Re.sub pattern_alt (replace_map_alt g) post.
Proof.
  intros H. rewrite (sub_Some _ pattern_alt_opening _ _ _ _ _ H).
  apply search_sound in H as (Hg & _ & _). unfold replace_map_alt.
  rewrite Hg. by rewrite !string_app_assoc.
Qed.


(** A patch that succeeds changes the text. *)
Lemma patch_Ok_changes content g new : patch content g = Ok new -> new <> content.
Proof.
  unfold patch. destruct (String.eqb _ content) eqn:E; [done|].
  intros [= <-]. by apply String.eqb_neq.
Qed.

Lemma patch_Raise content g e :
  patch content g = Raise e ->
  e = ValueError "Could not find ARTICLE_LINK_MAP in config file".
Proof. unfold patch. destruct (String.eqb _ content); congruence. Qed.

Lemma search_None_iff p s : Re.search p s = None <-> ~ recognizable p s.
Proof.
  split.
  - intros H (pre & body & post & ->).
    destruct (search_complete p pre body post) as [x Hx]. congruence.
  - intros H. destruct (Re.search p s) as [[[pre m] post]|] eqn:E; [|done].
    destruct H. apply search_sound in E as (_ & _ & ->). by eexists _, _, _.
Qed.

(** C4: when the text of the destination file has no region that either
    pattern matches, [update_zendesk_config] raises the [ValueError] (the
    error for a block that is not found) and the file system is the one it
    started from: nothing is written. *)
Theorem update_block_not_found config_path g fs content :
  fs !! config_path = Some content ->
  ~ recognizable pattern content ->
  ~ recognizable pattern_alt content ->
  update_zendesk_config config_path g fs =
    (Raise (ValueError "Could not find ARTICLE_LINK_MAP in config file"), fs).
Proof.
  intros Hfs H1%search_None_iff H2%search_None_iff.
  rewrite (update_zendesk_config_patch _ _ _ _ Hfs).
  by rewrite (patch_not_found _ _ H1 H2).
Qed.

Lemma update_block_not_found_witness :
  update_zendesk_config "zendesk.ts" "  '1': '/new'"
    {[ "zendesk.ts" := "export const SOMETHING_ELSE = {};" ]} =
  (Raise (ValueError "Could not find ARTICLE_LINK_MAP in config file"),
   {[ "zendesk.ts" := "export const SOMETHING_ELSE = {};" ]}).
Proof.
  apply (update_block_not_found "zendesk.ts" "  '1': '/new'"
           {[ "zendesk.ts" := "export const SOMETHING_ELSE = {};" ]}
           "export const SOMETHING_ELSE = {};").
  - vm_compute. reflexivity.
  - apply search_None_iff. vm_compute. reflexivity.
  - apply search_None_iff. vm_compute. reflexivity.
Defined.



(** C1, where it fails: a text with two regions of the strict form is not
    refused; both regions are rewritten and the text is written. *)
Lemma update_rewrites_every_block :
  Re.count pattern two_blocks = 2 /\
  update_zendesk_config "zendesk.ts" new_entries {[ "zendesk.ts" := two_blocks ]} =
    (Ok tt, {[ "zendesk.ts" := two_blocks_patched ]}).
Proof. split; vm_compute; reflexivity. Qed.

(** C1, amended: with no region under either pattern the patch raises and
    writes nothing; with more than one region of the strict form whose
    rewriting changes the text, the patch succeeds: the text is made of the
    matches that [finditer] lists and of the texts between them, and the
    text written is the same with every one of these matches rewritten. *)
Theorem update_zero_or_many_blocks config_path g fs content :
  fs !! config_path = Some content ->
  (Re.count pattern content = 0 -> Re.count pattern_alt content = 0 ->
   update_zendesk_config config_path g fs =
     (Raise (ValueError "Could not find ARTICLE_LINK_MAP in config file"), fs)) /\
  (1 < Re.count pattern content ->
   Re.sub pattern (replace_map g) content <> content ->
   content = splice Re.group0 (Re.finditer pattern content) /\
   update_zendesk_config config_path g fs =
     (Ok tt, <[config_path := splice (replace_map g) (Re.finditer pattern content)]> fs)).
Proof.
  intros Hfs. rewrite (update_zendesk_config_patch _ _ _ _ Hfs). split.
  - intros H1%count_0 H2%count_0; [|done..]. by rewrite (patch_not_found _ _ H1 H2).
  - intros _ H. split; [by rewrite (finditer_decomposes _ pattern_opening)|].
    by rewrite (patch_strict _ _ H).
Qed.

Lemma update_zero_or_many_blocks_witness :
  update_zendesk_config "zendesk.ts" new_entries {[ "zendesk.ts" := "const x = 1;" ]} =
    (Raise (ValueError "Could not find ARTICLE_LINK_MAP in config file"),
     {[ "zendesk.ts" := "const x = 1;" ]}) /\
  (two_blocks = splice Re.group0 (Re.finditer pattern two_blocks) /\
   update_zendesk_config "zendesk.ts" new_entries {[ "zendesk.ts" := two_blocks ]} =
     (Ok tt, <["zendesk.ts" := splice (replace_map new_entries) (Re.finditer pattern two_blocks)]>
               {[ "zendesk.ts" := two_blocks ]})).
Proof.
  split.
  - apply (update_zero_or_many_blocks "zendesk.ts" new_entries
             {[ "zendesk.ts" := "const x = 1;" ]} "const x = 1;");
      vm_compute; reflexivity.
  - apply (update_zero_or_many_blocks "zendesk.ts" new_entries
             {[ "zendesk.ts" := two_blocks ]} two_blocks).
    + vm_compute. reflexivity.
    + vm_compute. lia.
    + apply String.eqb_neq. vm_compute. reflexivity.
Defined.

(** A second patch never succeeds with the text of the first one: a patch
    that succeeds changes the text. *)
Lemma patch_never_stable content g new : patch content g = Ok new -> patch new g <> Ok new.
Proof. intros _ H%patch_Ok_changes. done. Qed.

(** C3, at the failing input: the first patch of [old_block] succeeds and
    gives [new_block]; the second patch with the same entries raises the
    [ValueError], although [new_block] has the block. *)
Theorem patch_second_run_raises :
  patch old_block new_entries = Ok new_block /\
  recognizable pattern new_block /\
  patch new_block new_entries =
    Raise (ValueError "Could not find ARTICLE_LINK_MAP in config file").
Proof.
  split; [vm_compute; reflexivity|]. split; [|vm_compute; reflexivity].
  exists "", (nl +:+ new_entries +:+ nl), "". vm_compute. reflexivity.
Qed.

(** C8, at the failing input: the file has one region of the strict form,
    already holding the new entries; the patch succeeds and the declaration
    that follows the region, outside of it, is gone from the text. *)
Theorem patch_in_sync_overwrites_following_text :
  Re.count pattern in_sync_file = 1 /\
  Re.search pattern in_sync_file =
    Some ("// links" +:+ nl,
          {| Re.group1 := OPENING; Re.group2 := nl +:+ new_entries +:+ nl;
             Re.group3 := "} as const;" |},
          nl +:+ other_declaration) /\
  patch in_sync_file new_entries = Ok ("// links" +:+ nl +:+ new_block +:+ nl).
Proof. repeat split; vm_compute; reflexivity. Qed.

Lemma string_app_inj_r s t u : s +:+ u = t +:+ u -> s = t.
Proof.
  revert t. induction s as [|c s IH]; intros [|d t] H; [done| | |].
  - apply (f_equal String.length) in H. rewrite string_app_cons in H. simpl in H.
    rewrite string_length_app in H. lia.
  - apply (f_equal String.length) in H. rewrite string_app_cons in H. simpl in H.
    rewrite string_length_app in H. lia.
  - rewrite !string_app_cons in H. injection H as -> H. f_equal. by apply IH.
Qed.

(** Where the frame property holds: one region of the strict form whose
    body is not yet the new entries.  The region is rewritten and the text
    before and after it is kept. *)
Lemma patch_single_block content g pre m post :
  Re.search pattern content = Some (pre, m, post) ->
  Re.search pattern post = None ->
  Re.group2 m <> nl +:+ g +:+ nl ->
  patch content g = Ok (pre +:+ OPENING +:+ nl +:+ g +:+ nl +:+ "} as const;" +:+ post).
Proof.
  intros H1 H2 Hbody.
  assert (Re.sub pattern (replace_map g) content =
          pre +:+ OPENING +:+ nl +:+ g +:+ nl +:+ "} as const;" +:+ post) as Hsub.
  { rewrite (sub_Some _ pattern_opening _ _ _ _ _ H1), (sub_None _ _ _ H2).
    apply search_sound in H1 as (Hg1 & Hg3 & _). unfold replace_map.
    rewrite Hg1, Hg3. by rewrite !string_app_assoc. }
  rewrite patch_strict; rewrite Hsub; [done|].
  apply search_sound in H1 as (_ & _ & ->). intros E.
  change (Re.opening pattern) with OPENING in E.
  change (Re.closing pattern) with "} as const;" in E.
  apply (inj (String.app pre)), (inj (String.app OPENING)) in E.
  rewrite <- !string_app_assoc in E. apply string_app_inj_r in E. apply string_app_inj_r in E.
  rewrite !string_app_assoc in E. congruence.
Qed.

(** ** The target path *)

Lemma mdx_nonempty : ".mdx" <> "".
Proof. done. Qed.

Lemma partition_cons_None sep c s :
  partition sep (String c s) = None ->
  String.prefix sep (String c s) = false /\ partition sep s = None.
Proof.
  cbn [partition]. destruct (String.prefix sep (String c s)); [done|].
  by destruct (partition sep s) as [[??]|].
Qed.

Lemma replace_head old new c s :
  old <> "" -> String.prefix old (String c s) = false ->
  replace old new (String c s) = String c (replace old new s).
Proof.
  intros Hold Hp. destruct (partition old s) as [[b a]|] eqn:Hs.
  - rewrite (replace_Some old new Hold (String c s) (String c b) a).
    + by rewrite (replace_Some old new Hold s b a).
    + cbn [partition]. by rewrite Hp, Hs.
  - rewrite !replace_None; [done..|]. cbn [partition]. by rewrite Hp, Hs.
Qed.

Lemma prefix_cons_eq a s t : String.prefix (String a s) (String a t) = String.prefix s t.
Proof. cbn [String.prefix]. by destruct (ascii_dec a a). Qed.

Lemma prefix_cons_ne a b s t : b <> a -> String.prefix (String a s) (String b t) = false.
Proof. intros H. cbn [String.prefix]. destruct (ascii_dec a b); congruence. Qed.

(** An occurrence of [.mdx] cannot begin in the stem and end in the suffix. *)
Lemma mdx_no_straddle c s :
  String.prefix ".mdx" (String c s) = false ->
  String.prefix ".mdx" (String c (s +:+ ".mdx")) = false.
Proof.
  destruct (decide (c = "."%char)) as [->|]; [|by rewrite !prefix_cons_ne].
  rewrite !prefix_cons_eq.
  destruct s as [|c1 s]; [reflexivity|]. rewrite string_app_cons.
  destruct (decide (c1 = "m"%char)) as [->|]; [|by rewrite !prefix_cons_ne].
  rewrite !prefix_cons_eq.
  destruct s as [|c2 s]; [reflexivity|]. rewrite string_app_cons.
  destruct (decide (c2 = "d"%char)) as [->|]; [|by rewrite !prefix_cons_ne].
  rewrite !prefix_cons_eq.
  destruct s as [|c3 s]; [reflexivity|]. rewrite string_app_cons.
  destruct (decide (c3 = "x"%char)) as [->|]; [|by rewrite !prefix_cons_ne].
  rewrite !prefix_cons_eq. by destruct s.
Qed.

Lemma partition_mdx_suffix stem :
  partition ".mdx" stem = None ->
  partition ".mdx" (stem +:+ ".mdx") = Some (stem, "").
Proof.
  induction stem as [|c s IH]; [done|].
  intros [Hp Hs]%partition_cons_None. rewrite string_app_cons. cbn [partition].
  by rewrite (mdx_no_straddle _ _ Hp), (IH Hs).
Qed.

Lemma contains_false sub s : contains sub s = false <-> partition sub s = None.
Proof.
  unfold contains. rewrite bool_decide_eq_false, <- eq_None_not_Some. done.
Qed.

(** C2, where it fails: a path that begins with [/] gives a target path
    with two separators in front, and removing an inner [.mdx] can bring a
    new one together. *)
Lemma target_path_counterexample :
  target_path "/a.mdx" = "//a" /\
  single_leading_separator (target_path "/a.mdx") = false /\
  target_path ".m.mdxdx" = "/.mdx" /\
  contains ".mdx" (target_path ".m.mdxdx") = true.
Proof. repeat split; vm_compute; reflexivity. Qed.

(** ** The article map and its sorted items *)

Lemma article_map_foldl items : article_map items = foldl set_article ∅ items.
Proof. reflexivity. Qed.

Lemma foldl_set_article_other (items : list (string * ident)) m article_id :
  article_id ∉ items.*2 -> foldl set_article m items !! article_id = m !! article_id.
Proof.
  revert m. induction items as [|[p i] items IH]; intros m Hnot; [done|].
  rewrite fmap_cons, not_elem_of_cons in Hnot. destruct Hnot as [Hne Hnot].
  simpl. rewrite (IH _ Hnot). by apply lookup_insert_ne.
Qed.

(** Last write wins: the article id maps to the target path of the last
    item that carries it. *)
Lemma article_map_last (before after : list (string * ident)) file_path article_id :
  article_id ∉ after.*2 ->
  article_map (before ++ (file_path, article_id) :: after) !! article_id =
    Some (target_path file_path).
Proof.
  intros Hnot. rewrite article_map_foldl, foldl_app. simpl.
  rewrite (foldl_set_article_other _ _ _ Hnot). apply lookup_insert_eq.
Qed.

(** Every value of the article map is the target path of an item. *)
Lemma foldl_set_article_Some (items : list (string * ident)) m article_id path :
  foldl set_article m items !! article_id = Some path ->
  m !! article_id = Some path \/
  exists file_path, (file_path, article_id) ∈ items /\ path = target_path file_path.
Proof.
  revert m. induction items as [|[p i] items IH]; intros m H; [by left|].
  simpl in H. apply IH in H as [H|(p' & Hin & ->)].
  - destruct (decide (i = article_id)) as [->|Hne].
    + rewrite lookup_insert_eq in H. injection H as <-.
      right. exists p. split; [apply elem_of_cons; by left|done].
    + rewrite lookup_insert_ne in H by done. by left.
  - right. exists p'. split; [apply elem_of_cons; by right|done].
Qed.

Lemma sorted_items_Permutation items :
  sorted_items items ≡ₚ map_to_list (article_map items).
Proof. apply merge_sort_Permutation. Qed.

Lemma elem_of_sorted_items items article_id path :
  (article_id, path) ∈ sorted_items items <-> article_map items !! article_id = Some path.
Proof. by rewrite sorted_items_Permutation, elem_of_map_to_list. Qed.

Lemma sorted_items_NoDup items : NoDup (sorted_items items).*1.
Proof. rewrite sorted_items_Permutation. apply NoDup_fst_map_to_list. Qed.

Lemma sorted_items_target_path items article_id path :
  (article_id, path) ∈ sorted_items items ->
  exists file_path, (file_path, article_id) ∈ items /\ path = target_path file_path.
Proof.
  intros H%elem_of_sorted_items. rewrite article_map_foldl in H.
  by apply foldl_set_article_Some in H as [H|H].
Qed.

Lemma entries_for_absent (l : list (ident * string)) article_id :
  article_id ∉ l.*1 -> entries_for article_id l = [].
Proof.
  unfold entries_for. induction l as [|[i v] l IH]; intros Hnot; [done|].
  rewrite fmap_cons, not_elem_of_cons in Hnot. destruct Hnot as [Hne Hnot].
  rewrite filter_cons_False by (simpl; intros ->; by apply Hne). by apply IH.
Qed.

Lemma entries_for_unique (l : list (ident * string)) article_id path :
  NoDup l.*1 -> (article_id, path) ∈ l -> entries_for article_id l = [(article_id, path)].
Proof.
  induction l as [|[i v] l IH]; intros Hnd Hin.
  - by apply elem_of_nil in Hin.
  - rewrite fmap_cons in Hnd. apply NoDup_cons in Hnd as [Hi Hnd].
    unfold entries_for. apply elem_of_cons in Hin as [[= <- <-]|Hin].
    + rewrite filter_cons_True by done. f_equal. by apply entries_for_absent.
    + assert (i <> article_id) as Hne.
      { intros ->. apply Hi. by apply (list_elem_of_fmap_2 fst _ (article_id, path)). }
      rewrite filter_cons_False by done. by apply IH.
Qed.

#[local] Instance ident_le_trans : Transitive ident_le.
Proof.
  intros [s|n] [t|m] [u|k]; unfold ident_le; try done.
  - apply transitivity.
  - apply Z.le_trans.
Qed.

#[local] Instance ident_le_total : Total ident_le.
Proof.
  intros [s|n] [t|m]; unfold ident_le; auto.
  - apply total, _.
  - lia.
Qed.

Lemma ident_le_antisym a b : ident_le a b -> ident_le b a -> a = b.
Proof.
  destruct a as [s|n], b as [t|m]; unfold ident_le; try done.
  - intros H1 H2. f_equal. by apply (anti_symm String.le).
  - intros H1 H2. f_equal. lia.
Qed.

#[local] Instance key_le_trans : Transitive key_le.
Proof. intros x y z. unfold key_le. apply transitivity. Qed.

#[local] Instance key_le_total : Total key_le.
Proof. intros x y. unfold key_le. apply total, _. Qed.

Lemma le_ne_ltb (a b : string) : String.le a b -> a <> b -> String.ltb a b = true.
Proof.
  unfold String.le, String.leb, String.ltb. intros Hle Hne.
  destruct (String.compare a b) eqn:E; [|done..].
  by apply String.compare_eq_iff in E.
Qed.

Lemma sorted_NoDup_ascending (l : list (ident * string)) :
  StronglySorted key_le l -> NoDup l.*1 -> ascending l.
Proof.
  unfold ascending. induction 1 as [|x l Hs IH Hall]; intros Hnd; constructor.
  - apply IH. rewrite fmap_cons in Hnd. by apply NoDup_cons in Hnd as [_ ?].
  - rewrite fmap_cons in Hnd. apply NoDup_cons in Hnd as [Hx _].
    rewrite Forall_forall in Hall |- *. intros y Hy. split.
    + by apply Hall.
    + intros E. apply Hx. rewrite E. by apply (list_elem_of_fmap_2 fst).
Qed.

Lemma sorted_items_ascending items : ascending (sorted_items items).
Proof.
  apply sorted_NoDup_ascending; [|apply sorted_items_NoDup].
  apply (StronglySorted_merge_sort key_le).
Qed.

(** The sorted items are the only arrangement of the items of the article
    map in ascending order: they do not depend on the order in which the
    dict gives its items nor on the sorting algorithm. *)
Lemma sorted_items_unique items (l : list (ident * string)) :
  l ≡ₚ map_to_list (article_map items) -> ascending l -> l = sorted_items items.
Proof.
  intros Hperm Hasc.
  apply (StronglySorted_unique_strong (fun x y => ident_lt x.1 y.1)).
  - intros x y _ _ [Hxy Hne] [Hyx _]. destruct Hne. by apply ident_le_antisym.
  - exact Hasc.
  - apply sorted_items_ascending.
  - by rewrite sorted_items_Permutation.
Qed.

Lemma StronglySorted_impl_elem {A} (R R' : relation A) (l : list A) :
  (forall x y, x ∈ l -> y ∈ l -> R x y -> R' x y) ->
  StronglySorted R l -> StronglySorted R' l.
Proof.
  intros HR Hs. induction Hs as [|x l Hs IH Hall]; constructor.
  - apply IH. intros y z Hy Hz. apply HR; by apply elem_of_cons; right.
  - rewrite Forall_forall in Hall |- *. intros y Hy.
    apply HR; [by apply elem_of_cons; left|by apply elem_of_cons; right|by apply Hall].
Qed.

(** When every article id is a text, the sorted items are in ascending
    lexicographic order of the ids. *)
Lemma sorted_items_texts_lexicographic (items : list (string * ident)) :
  (forall file_path article_id,
     (file_path, article_id) ∈ items -> exists s, article_id = IStr s) ->
  lexicographic (sorted_items items).
Proof.
  intros Htext. unfold lexicographic.
  eapply StronglySorted_impl_elem; [|apply sorted_items_ascending].
  intros [i v] [j w] Hi Hj [Hle Hne]. simpl in *.
  apply sorted_items_target_path in Hi as (p & Hp & _).
  apply sorted_items_target_path in Hj as (q & Hq & _).
  destruct (Htext _ _ Hp) as [s ->], (Htext _ _ Hq) as [t ->]. simpl.
  apply le_ne_ltb; [done|congruence].
Qed.

(** The keys of the article map are the article ids of the items. *)
Lemma article_map_key (items : list (string * ident)) article_id :
  article_id ∈ (map_to_list (article_map items)).*1 -> article_id ∈ items.*2.
Proof.
  intros ([i v] & -> & Hin)%list_elem_of_fmap. apply elem_of_map_to_list in Hin.
  simpl. rewrite article_map_foldl in Hin.
  apply foldl_set_article_Some in Hin as [Hin|(p & Hp & _)]; [done|].
  by apply (list_elem_of_fmap_2 snd _ (p, i)).
Qed.

Lemma comparable_same_type (ids : list ident) :
  (forall a b, a ∈ ids -> b ∈ ids -> same_type a b = true) -> comparable ids = true.
Proof.
  destruct ids as [|a rest]; [done|]. intros H. simpl.
  apply forallb_forall. intros b Hb%list_elem_of_In.
  apply H; [by apply elem_of_cons; left|by apply elem_of_cons; right].
Qed.

(** When every article id is a text, the sort can compare the keys. *)
Lemma comparable_texts (items : list (string * ident)) :
  (forall file_path article_id,
     (file_path, article_id) ∈ items -> exists s, article_id = IStr s) ->
  comparable (map_to_list (article_map items)).*1 = true.
Proof.
  intros Htext. apply comparable_same_type. intros a b Ha Hb.
  apply article_map_key, list_elem_of_fmap in Ha as ([p i] & -> & Hp).
  apply article_map_key, list_elem_of_fmap in Hb as ([q j] & -> & Hq).
  by destruct (Htext _ _ Hp) as [s ->], (Htext _ _ Hq) as [t ->].
Qed.

Lemma generate_Ok mapping_data items :
  files_items mapping_data = Ok items ->
  comparable (map_to_list (article_map items)).*1 = true ->
  generate_article_link_map mapping_data =
    Ok (join ("," +:+ nl) (entry <$> sorted_items items)).
Proof. intros H Hc. unfold generate_article_link_map. by rewrite H, Hc. Qed.


Lemma files_items_dict mapping_data items :
  mapping_data !! "files" = Some (JDict items) -> files_items mapping_data = Ok items.
Proof. intros H. unfold files_items. by rewrite H. Qed.

(** ** The transformer *)

(** C2, amended: every path of the generated items is the target path of a
    pair of the files collection; the target path of a path that begins
    neither with [/] nor with [.mdx] starts with exactly one [/]; and for a
    stem that does not contain [.mdx], the target path of the stem, with or
    without the suffix [.mdx], is [/] followed by the stem and does not
    contain [.mdx]. *)
Theorem target_path_relative :
  (forall items article_id path,
     (article_id, path) ∈ sorted_items items ->
     exists file_path, (file_path, article_id) ∈ items /\ path = target_path file_path) /\
  (forall file_path,
     String.prefix "/" file_path = false ->
     String.prefix ".mdx" file_path = false ->
     single_leading_separator (target_path file_path) = true) /\
  (forall stem,
     contains ".mdx" stem = false ->
     target_path stem = "/" +:+ stem /\
     target_path (stem +:+ ".mdx") = "/" +:+ stem /\
     contains ".mdx" ("/" +:+ stem) = false).
Proof.
  split; [apply sorted_items_target_path|]. split.
  - intros [|c s] Hsep Hmdx; [done|]. unfold target_path.
    rewrite (replace_head _ _ _ _ mdx_nonempty Hmdx).
    change (negb (String.prefix "/" (String c (replace ".mdx" "" s))) = true).
    destruct (decide (c = "/"%char)) as [->|]; [|by rewrite prefix_cons_ne].
    rewrite prefix_cons_eq in Hsep. by destruct s.
  - intros stem Hs%contains_false. unfold target_path. repeat split.
    + by rewrite (replace_None _ _ _ Hs).
    + rewrite (replace_Some _ _ mdx_nonempty _ _ _ (partition_mdx_suffix _ Hs)).
      change (replace ".mdx" "" "") with "". by rewrite !string_app_nil_r.
    + apply contains_false. change ("/" +:+ stem) with (String "/" stem).
      cbn [partition]. by rewrite Hs.
Qed.

Lemma target_path_relative_witness :
  single_leading_separator (target_path "guide/setup.mdx") = true /\
  target_path ("guide/setup" +:+ ".mdx") = "/" +:+ "guide/setup" /\
  contains ".mdx" ("/" +:+ "guide/setup") = false.
Proof.
  split.
  - apply (proj1 (proj2 target_path_relative) "guide/setup.mdx"); vm_compute; reflexivity.
  - apply (proj2 (proj2 target_path_relative) "guide/setup"). vm_compute. reflexivity.
Defined.

(** Last write wins among the sorted items: when two items of the files
    carry the same article id, the sorted items hold exactly one entry for
    that id, whose path is the target path of the item met last. *)
Lemma sorted_items_last_write_wins
    (before between after : list (string * ident)) path1 path2 article_id :
  article_id ∉ after.*2 ->
  entries_for article_id
    (sorted_items (before ++ (path1, article_id) :: between ++ (path2, article_id) :: after))
  = [(article_id, target_path path2)].
Proof.
  intros Hlast.
  apply entries_for_unique; [apply sorted_items_NoDup|].
  apply elem_of_sorted_items.
  replace (before ++ (path1, article_id) :: between ++ (path2, article_id) :: after)
    with ((before ++ (path1, article_id) :: between) ++ (path2, article_id) :: after)
    by (by rewrite <- List.app_assoc).
  by apply article_map_last.
Qed.

(** C5, at the failing input: two paths carry the article id ['7'] and a
    third one the integer [8].  The sort compares a text with an integer
    and the generation raises [TypeError]; without the third path the
    block is the one entry of ['7'] with the path met last. *)
Theorem generate_mixed_ids_raises :
  generate_article_link_map
    {[ "files" := JDict [("a.mdx", IStr "7"); ("b.mdx", IStr "7"); ("c.mdx", IInt 8)] ]}
    = Raise TypeError /\
  generate_article_link_map
    {[ "files" := JDict [("a.mdx", IStr "7"); ("b.mdx", IStr "7")] ]}
    = Ok "  '7': '/b'".
Proof. split; vm_compute; reflexivity. Qed.

(** C6, at the failing input: the article ids are the integers [10] and
    [9].  The sort compares them as integers and the block has the entry
    of 9 before the entry of 10, which is not the lexicographic order of
    the ids shown: as texts, ['10'] comes before ['9']. *)
Theorem generate_sorts_integers_numerically :
  generate_article_link_map
    {[ "files" := JDict [("a.mdx", IInt 10); ("b.mdx", IInt 9)] ]}
    = Ok ("  '9': '/b'," +:+ nl +:+ "  '10': '/a'") /\
  sorted_items [("a.mdx", IInt 10); ("b.mdx", IInt 9)] = [(IInt 9, "/b"); (IInt 10, "/a")] /\
  ~ lexicographic (sorted_items [("a.mdx", IInt 10); ("b.mdx", IInt 9)]).
Proof.
  split; [vm_compute; reflexivity|]. split; [vm_compute; reflexivity|].
  assert (sorted_items [("a.mdx", IInt 10); ("b.mdx", IInt 9)] =
          [(IInt 9, "/b"); (IInt 10, "/a")]) as -> by (vm_compute; reflexivity).
  unfold lexicographic. intros H. apply StronglySorted_cons in H as [H _].
  apply Forall_cons in H as [H _]. vm_compute in H. discriminate H.
Qed.

(** Where the order is the lexicographic one: when every article id is a
    text the generation returns, and the items of the block are in
    ascending lexicographic order of their ids; the document of scenario A
    gives the entry of 1001 followed by the entry of 1002. *)
Lemma generate_texts_lexicographic :
  (forall mapping_data items,
     files_items mapping_data = Ok items ->
     (forall file_path article_id,
        (file_path, article_id) ∈ items -> exists s, article_id = IStr s) ->
     generate_article_link_map mapping_data =
       Ok (join ("," +:+ nl) (entry <$> sorted_items items)) /\
     lexicographic (sorted_items items)) /\
  generate_article_link_map scenario_A_document =
    Ok ("  '1001': '/guide/setup'," +:+ nl +:+ "  '1002': '/guide/faq'").
Proof.
  split; [|vm_compute; reflexivity].
  intros mapping_data items H Htext. split.
  - by apply generate_Ok, comparable_texts.
  - by apply sorted_items_texts_lexicographic.
Qed.

(** C10: a document without the key [files], or with an empty mapping
    under it, gives the empty block without an error; patching
    [old_block] with it leaves a block without entries. *)
Theorem generate_no_files mapping_data :
  mapping_data !! "files" = None \/ mapping_data !! "files" = Some (JDict []) ->
  generate_article_link_map mapping_data = Ok "" /\
  patch old_block "" = Ok (OPENING +:+ nl +:+ nl +:+ "} as const;").
Proof.
  intros H. split; [|vm_compute; reflexivity].
  unfold generate_article_link_map, files_items.
  destruct H as [-> | ->]; vm_compute; reflexivity.
Qed.

Lemma generate_no_files_witness :
  generate_article_link_map {[ "version" := JStr "2" ]} = Ok "" /\
  generate_article_link_map {[ "files" := JDict [] ]} = Ok "".
Proof.
  split.
  - apply (generate_no_files {[ "version" := JStr "2" ]}). left. vm_compute. reflexivity.
  - apply (generate_no_files {[ "files" := JDict [] ]}). right. vm_compute. reflexivity.
Defined.

(** ** The run *)

Section MainFacts.
Variables PROJECT_ROOT tmp_dir : string.
Variable run : list string -> option string.
Variable checked_out : string -> option contents.
Variable json_loads : string -> option parsed.

Let fetched : result parsed :=
  fetch_file_with_sparse_checkout tmp_dir run checked_out json_loads REPO_URL FILE_PATH BRANCH.
Let config : string := ZENDESK_CONFIG PROJECT_ROOT.
Let run_main : io unit := main PROJECT_ROOT tmp_dir run checked_out json_loads.

(** The fetch raises one of the three exceptions that [main] catches, or
    the [UnicodeDecodeError] of a file that cannot be decoded. *)
Lemma fetch_raises e :
  fetched = Raise e -> fetch_error e = true \/ e = UnicodeDecodeError.
Proof.
  unfold fetched, fetch_file_with_sparse_checkout, check_run.
  repeat (destruct (run _); [by intros [= <-]; left|]).
  destruct (checked_out _) as [[text|]|]; [|by intros [= <-]; right|by intros [= <-]; left].
  destruct (json_loads text); [done|by intros [= <-]; left].
Qed.

(** A text that is not JSON makes the fetch raise. *)
Lemma fetch_malformed text :
  (forall args, run args = None) ->
  checked_out (tmp_dir +:+ "/" +:+ FILE_PATH) = Some (Text text) ->
  json_loads text = None ->
  fetched = Raise (JSONDecodeError text).
Proof.
  intros Hrun Hout Hjson.
  unfold fetched, fetch_file_with_sparse_checkout, check_run.
  by rewrite !Hrun, Hout, Hjson.
Qed.

Lemma main_missing fs : fs !! config = None -> run_main fs = (Raise (SystemExit 1), fs).
Proof.
  intros H. unfold run_main, main, bind, path_exists. fold config. rewrite H.
  rewrite bool_decide_eq_false_2; [done|]. by intros [? ?].
Qed.

Lemma main_present fs content :
  fs !! config = Some content ->
  run_main fs =
    match fetched with
    | Raise e => if fetch_error e then (Raise (SystemExit 1), fs) else (Raise e, fs)
    | Ok data =>
        match generate_for data with
        | Raise e => (Raise e, fs)
        | Ok g =>
            match patch content g with
            | Raise e => (Raise (SystemExit 1), fs)
            | Ok new => (Ok tt, <[config := new]> fs)
            end
        end
    end.
Proof.
  intros H. unfold run_main, main, bind, path_exists, try_except, lift.
  fold config fetched. rewrite H, bool_decide_eq_true_2 by eauto. simpl.
  destruct fetched as [data|e] eqn:Hf.
  - destruct (generate_for data) as [g|e]; [|done].
    rewrite (update_zendesk_config_patch _ _ _ _ H).
    destruct (patch content g) as [new|e] eqn:Hp; [done|].
    by rewrite (patch_Raise _ _ _ Hp).
  - by destruct (fetch_error e).
Qed.

(** A run whose fetch raises ends with status 1 in the file system it
    started from. *)
Lemma main_fetch_raises fs e :
  fetched = Raise e -> (run_main fs).2 = fs /\ exit_status (run_main fs).1 = 1.
Proof.
  intros He. destruct (fs !! config) as [content|] eqn:Hc.
  - rewrite (main_present _ _ Hc), He.
    by destruct (fetch_raises _ He) as [->| ->].
  - by rewrite (main_missing _ Hc).
Qed.

(** C7: when the fetch raises (a text that is not JSON makes it raise), or
    when the patch of the text of the destination raises, the run ends with
    status 1 in the file system it started from.  In every run the file
    system at the end is the one at the start, or the fetch, the generation
    and the patch succeeded and the end differs by the one write of the
    destination. *)
Theorem main_failure_leaves_destination fs :
  ((exists e, fetched = Raise e) \/
   (exists data g content e,
      fetched = Ok data /\ generate_for data = Ok g /\
      fs !! config = Some content /\ patch content g = Raise e) ->
   (run_main fs).2 = fs /\ exit_status (run_main fs).1 = 1) /\
  (forall text,
     (forall args, run args = None) ->
     checked_out (tmp_dir +:+ "/" +:+ FILE_PATH) = Some (Text text) ->
     json_loads text = None ->
     (run_main fs).2 = fs /\ exit_status (run_main fs).1 = 1) /\
  ((run_main fs).2 = fs \/
   exists data g content new,
     fetched = Ok data /\ generate_for data = Ok g /\
     fs !! config = Some content /\ patch content g = Ok new /\
     run_main fs = (Ok tt, <[config := new]> fs)).
Proof.
  split; [|split].
  - intros [[e He]|(data & g & content & e & Hf & Hg & Hc & Hp)];
      [by apply (main_fetch_raises _ e)|].
    by rewrite (main_present _ _ Hc), Hf, Hg, Hp.
  - intros text Hrun Hout Hjson.
    apply (main_fetch_raises _ (JSONDecodeError text)). by apply fetch_malformed.
  - destruct (fs !! config) as [content|] eqn:Hc.
    + rewrite (main_present _ _ Hc).
      destruct fetched as [data|e] eqn:Hf; [|left; by destruct (fetch_error e)].
      destruct (generate_for data) as [g|e] eqn:Hg; [|by left].
      destruct (patch content g) as [new|e] eqn:Hp; [|by left].
      right. by exists data, g, content, new.
    + left. by rewrite (main_missing _ Hc).
Qed.

End MainFacts.

(** Scenario D: the remote text is [not json]. *)
Lemma main_failure_leaves_destination_witness :
  (main "/repo" "/tmp/x" (fun _ => None) (fun _ => Some (Text "not json")) (fun _ => None)
     {[ "/repo/src/config/zendesk.ts" := old_block ]}).2 =
    {[ "/repo/src/config/zendesk.ts" := old_block ]} /\
  exit_status
    (main "/repo" "/tmp/x" (fun _ => None) (fun _ => Some (Text "not json")) (fun _ => None)
       {[ "/repo/src/config/zendesk.ts" := old_block ]}).1 = 1.
Proof.
  apply (proj1 (proj2 (main_failure_leaves_destination
           "/repo" "/tmp/x" (fun _ => None) (fun _ => Some (Text "not json"))
           (fun _ => None)
           {[ "/repo/src/config/zendesk.ts" := old_block ]})) "not json");
    reflexivity.
Defined.

(** * Further properties of the script *)

(** ** The matches of a pattern *)

(** [partition] stops at the first occurrence of the separator. *)
Lemma partition_first sep s before after before' after' :
  partition sep s = Some (before, after) ->
  s = before' +:+ sep +:+ after' ->
  String.length before <= String.length before'.
Proof.
  revert before before'. induction s as [|c s IH]; intros before before'.
  - destruct sep; [|done]. intros [= <- <-] _. simpl. lia.
  - cbn [partition]. destruct (String.prefix sep (String c s)) eqn:Hp.
    + intros [= <- <-] _. simpl. lia.
    + destruct (partition sep s) as [[b a]|] eqn:Hs; [|done].
      intros [= <- <-] E. destruct before' as [|d b'].
      * change ("" +:+ sep +:+ after') with (sep +:+ after') in E.
        rewrite E, prefix_app in Hp. done.
      * rewrite string_app_cons in E. injection E as <- E.
        simpl. apply le_n_S. by apply (IH b b').
Qed.

Lemma search_match_at p s pre m post :
  Re.search p s = Some (pre, m, post) ->
  exists s1, s = pre +:+ s1 /\ Re.match_at p s1 = Some (Re.group2 m, post).
Proof.
  revert pre. induction s as [|c s IH]; intros pre; cbn [Re.search].
  - destruct (Re.match_at p "") as [[b a]|] eqn:Hm; [|done].
    intros [= <- <- <-]. by exists "".
  - destruct (Re.match_at p (String c s)) as [[b a]|] eqn:Hm.
    + intros [= <- <- <-]. by exists (String c s).
    + destruct (Re.search p s) as [[[pre' m'] post']|]; [|done].
      intros [= <- <- <-]. destruct (IH pre' eq_refl) as (s1 & -> & H1).
      by exists s1.
Qed.

Lemma search_leftmost p s pre m post pre' body' post' :
  Re.search p s = Some (pre, m, post) ->
  s = pre' +:+ Re.opening p +:+ body' +:+ Re.closing p +:+ post' ->
  String.length pre <= String.length pre'.
Proof.
  revert pre pre'. induction s as [|c s IH]; intros pre pre'; cbn [Re.search].
  - destruct (Re.match_at p "") as [[b a]|]; [|done].
    intros [= <- <- <-] _. simpl. lia.
  - destruct (Re.match_at p (String c s)) as [[b a]|] eqn:Hm.
    + intros [= <- <- <-] _. simpl. lia.
    + destruct (Re.search p s) as [[[pre0 m0] post0]|] eqn:Hs; [|done].
      intros [= <- <- <-] E. destruct pre' as [|d pre'].
      * change ("" +:+ ?x) with x in E. rewrite E in Hm.
        destruct (match_at_complete p body' post') as [x Hx]. congruence.
      * rewrite string_app_cons in E. injection E as <- E.
        simpl. apply le_n_S. by apply (IH pre0 pre').
Qed.

(** X1: the match that [search] returns is a region of the text, no region
    starts earlier in the text, and among the regions that start at the
    same place it has the shortest body (the lazy [.*?] stops at the first
    closing). *)
Theorem search_leftmost_shortest p s pre m post :
  Re.search p s = Some (pre, m, post) ->
  s = pre +:+ Re.opening p +:+ Re.group2 m +:+ Re.closing p +:+ post /\
  (forall pre' body' post',
     s = pre' +:+ Re.opening p +:+ body' +:+ Re.closing p +:+ post' ->
     String.length pre <= String.length pre') /\
  (forall body' post',
     s = pre +:+ Re.opening p +:+ body' +:+ Re.closing p +:+ post' ->
     String.length (Re.group2 m) <= String.length body').
Proof.
  intros H. split; [by apply search_sound in H as (_ & _ & ?)|]. split.
  - intros pre' body' post' E. exact (search_leftmost _ _ _ _ _ _ _ _ H E).
  - intros body' post' E. destruct (search_match_at _ _ _ _ _ H) as (s1 & E1 & Hm).
    rewrite E1 in E. apply (inj (String.app pre)) in E. subst s1.
    unfold Re.match_at in Hm. rewrite prefix_app, drop_app in Hm.
    by apply (partition_first _ _ _ _ body' post' Hm).
Qed.

Lemma search_leftmost_shortest_witness :
  two_blocks =
    "" +:+ OPENING +:+ (nl +:+ "  '9': '/old'" +:+ nl) +:+ "} as const;" +:+
    (nl +:+ OPENING +:+ nl +:+ "  '8': '/older'" +:+ nl +:+ "} as const;" +:+ nl) /\
  (forall pre' body' post',
     two_blocks = pre' +:+ OPENING +:+ body' +:+ "} as const;" +:+ post' ->
     String.length "" <= String.length pre') /\
  (forall body' post',
     two_blocks = "" +:+ OPENING +:+ body' +:+ "} as const;" +:+ post' ->
     String.length (nl +:+ "  '9': '/old'" +:+ nl) <= String.length body').
Proof.
  apply (search_leftmost_shortest pattern two_blocks ""
           {| Re.group1 := OPENING; Re.group2 := nl +:+ "  '9': '/old'" +:+ nl;
              Re.group3 := "} as const;" |}).
  vm_compute. reflexivity.
Defined.

(** X2: [search] finds a match exactly when the text has the opening
    followed, somewhere later, by the closing. *)
Theorem search_finds_iff p s : is_Some (Re.search p s) <-> recognizable p s.
Proof.
  split.
  - intros [[[pre m] post] H]. apply search_sound in H as (_ & _ & ->).
    by eexists _, _, _.
  - intros (pre & body & post & ->). apply search_complete.
Qed.

(** ** [update_zendesk_config] *)

Lemma update_zendesk_config_missing config_path g fs :
  fs !! config_path = None ->
  update_zendesk_config config_path g fs = (Raise (FileNotFoundError config_path), fs).
Proof.
  intros H. unfold update_zendesk_config, bind, read_text. by rewrite H.
Qed.

(** The text of a patch that succeeds: the new entries stand after the
    first opening of the text, under the closing [} as const;], and the
    text before that opening is the one of the file. *)
Lemma patch_Ok_shape content g new :
  patch content g = Ok new ->
  exists pre tail rest,
    content = pre +:+ OPENING +:+ tail /\
    new = pre +:+ OPENING +:+ nl +:+ g +:+ nl +:+ "} as const;" +:+ rest.
Proof.
  unfold patch, new_content.
  destruct (String.eqb (Re.sub pattern (replace_map g) content) content) eqn:E1.
  - destruct (String.eqb (Re.sub pattern_alt (replace_map_alt g) content) content) eqn:E2;
      [done|]. intros [= <-]. apply String.eqb_neq in E2.
    destruct (Re.search pattern_alt content) as [[[pre m] post]|] eqn:Hs.
    + exists pre, (Re.group2 m +:+ "};" +:+ post),
        (Re.sub pattern_alt (replace_map_alt g) post).
      split; [|exact (sub_alt_Some _ g _ _ _ Hs)].
      by apply search_sound in Hs as (_ & _ & ?).
    + by rewrite (sub_None _ _ _ Hs) in E2.
  - rewrite E1. intros [= <-]. apply String.eqb_neq in E1.
    destruct (Re.search pattern content) as [[[pre m] post]|] eqn:Hs.
    + exists pre, (Re.group2 m +:+ "} as const;" +:+ post),
        (Re.sub pattern (replace_map g) post).
      split; [by apply search_sound in Hs as (_ & _ & ?)|].
      rewrite (sub_Some _ pattern_opening _ _ _ _ _ Hs).
      apply search_sound in Hs as (Hg1 & Hg3 & _). unfold replace_map.
      rewrite Hg1, Hg3. by rewrite !string_app_assoc.
    + by rewrite (sub_None _ _ _ Hs) in E1.
Qed.



(** The text of a patch that succeeds, from the first match of the form
    that was rewritten. *)
Lemma patch_Ok_first_match content g new :
  patch content g = Ok new ->
  exists p repl pre m post,
    (p = pattern /\ repl = replace_map g \/
     p = pattern_alt /\ repl = replace_map_alt g /\
     Re.sub pattern (replace_map g) content = content) /\
    Re.search p content = Some (pre, m, post) /\
    new = pre +:+ OPENING +:+ nl +:+ g +:+ nl +:+ "} as const;" +:+ Re.sub p repl post.
Proof.
  unfold patch, new_content.
  destruct (String.eqb (Re.sub pattern (replace_map g) content) content) eqn:E1.
  - destruct (String.eqb (Re.sub pattern_alt (replace_map_alt g) content) content) eqn:E2;
      [done|]. intros [= <-]. apply String.eqb_neq in E2. apply String.eqb_eq in E1.
    destruct (Re.search pattern_alt content) as [[[pre m] post]|] eqn:Hs.
    + exists pattern_alt, (replace_map_alt g), pre, m, post.
      split; [by right|]. split; [done|]. exact (sub_alt_Some _ g _ _ _ Hs).
    + by rewrite (sub_None _ _ _ Hs) in E2.
  - rewrite E1. intros [= <-]. apply String.eqb_neq in E1.
    destruct (Re.search pattern content) as [[[pre m] post]|] eqn:Hs.
    + exists pattern, (replace_map g), pre, m, post.
      split; [by left|]. split; [done|].
      rewrite (sub_Some _ pattern_opening _ _ _ _ _ Hs).
      apply search_sound in Hs as (Hg1 & Hg3 & _). unfold replace_map.
      rewrite Hg1, Hg3. by rewrite !string_app_assoc.
    + by rewrite (sub_None _ _ _ Hs) in E1.
Qed.

(** X4: when [update_zendesk_config] returns, one of the two forms was
    rewritten: the strict one, or the looser one when the substitution of
    the strict one leaves the text as it is.  The text written keeps what
    stood before the first match that [search] finds for that form, goes on
    with the opening, a newline, the new entries, a newline and the closing
    [} as const;], and ends with the text after that match, its further
    matches rewritten. *)
Theorem update_success_shape config_path g fs fs' :
  update_zendesk_config config_path g fs = (Ok tt, fs') ->
  exists content p repl pre m post,
    fs !! config_path = Some content /\
    (p = pattern /\ repl = replace_map g \/
     p = pattern_alt /\ repl = replace_map_alt g /\
     Re.sub pattern (replace_map g) content = content) /\
    Re.search p content = Some (pre, m, post) /\
    fs' = <[config_path :=
             pre +:+ OPENING +:+ nl +:+ g +:+ nl +:+ "} as const;" +:+
             Re.sub p repl post]> fs.
Proof.
  destruct (fs !! config_path) as [content|] eqn:Hc.
  - rewrite (update_zendesk_config_patch _ _ _ _ Hc).
    destruct (patch content g) as [new|e] eqn:Hp; [|done]. intros [= <-].
    destruct (patch_Ok_first_match _ _ _ Hp) as (p & repl & pre & m & post & Hform & Hs & ->).
    by exists content, p, repl, pre, m, post.
  - by rewrite (update_zendesk_config_missing _ _ _ Hc).
Qed.

Lemma update_success_shape_witness :
  exists content p repl pre m post,
    ({[ "zendesk.ts" := two_blocks ]} : gmap string string) !! "zendesk.ts" = Some content /\
    (p = pattern /\ repl = replace_map new_entries \/
     p = pattern_alt /\ repl = replace_map_alt new_entries /\
     Re.sub pattern (replace_map new_entries) content = content) /\
    Re.search p content = Some (pre, m, post) /\
    ({[ "zendesk.ts" := two_blocks_patched ]} : gmap string string) =
      <["zendesk.ts" :=
         pre +:+ OPENING +:+ nl +:+ new_entries +:+ nl +:+ "} as const;" +:+
         Re.sub p repl post]> {[ "zendesk.ts" := two_blocks ]}.
Proof.
  apply (update_success_shape "zendesk.ts" new_entries
           {[ "zendesk.ts" := two_blocks ]} {[ "zendesk.ts" := two_blocks_patched ]}).
  vm_compute. reflexivity.
Defined.

(** X5: [update_zendesk_config] never writes the text it read: when it
    returns, the text of the file is another one than before. *)
Theorem update_never_writes_same_text config_path g fs fs' :
  update_zendesk_config config_path g fs = (Ok tt, fs') ->
  fs' !! config_path <> fs !! config_path.
Proof.
  destruct (fs !! config_path) as [content|] eqn:Hc.
  - rewrite (update_zendesk_config_patch _ _ _ _ Hc).
    destruct (patch content g) as [new|e] eqn:Hp; [|done]. intros [= <-].
    rewrite lookup_insert_eq. intros [= ->]. by apply patch_Ok_changes in Hp.
  - by rewrite (update_zendesk_config_missing _ _ _ Hc).
Qed.

Lemma update_never_writes_same_text_witness :
  ({[ "zendesk.ts" := new_block ]} : gmap string string) !! "zendesk.ts" <>
  ({[ "zendesk.ts" := old_block ]} : gmap string string) !! "zendesk.ts".
Proof.
  apply (update_never_writes_same_text "zendesk.ts" new_entries
           {[ "zendesk.ts" := old_block ]} {[ "zendesk.ts" := new_block ]}).
  vm_compute. reflexivity.
Defined.

(** X6: a run that has nothing to change is reported as a failure.  When
    the only region of the strict form already holds the new entries and
    the looser form matches nowhere, [update_zendesk_config] raises the
    [ValueError] and writes nothing. *)
Theorem update_in_sync_raises config_path g fs content pre m post :
  fs !! config_path = Some content ->
  Re.search pattern content = Some (pre, m, post) ->
  Re.group2 m = nl +:+ g +:+ nl ->
  Re.search pattern post = None ->
  ~ recognizable pattern_alt content ->
  update_zendesk_config config_path g fs =
    (Raise (ValueError "Could not find ARTICLE_LINK_MAP in config file"), fs).
Proof.
  intros Hc Hs Hbody Hpost Halt%search_None_iff.
  rewrite (update_zendesk_config_patch _ _ _ _ Hc).
  assert (Re.sub pattern (replace_map g) content = content) as Hsub.
  { rewrite (sub_Some _ pattern_opening _ _ _ _ _ Hs), (sub_None _ _ _ Hpost).
    apply search_sound in Hs as (Hg1 & Hg3 & E). unfold replace_map.
    rewrite Hg1, Hg3, E at 1. by rewrite Hbody, !string_app_assoc. }
  unfold patch, new_content.
  rewrite Hsub, String.eqb_refl, (sub_None _ _ _ Halt). by rewrite String.eqb_refl.
Qed.

Lemma update_in_sync_raises_witness :
  update_zendesk_config "zendesk.ts" new_entries {[ "zendesk.ts" := new_block ]} =
    (Raise (ValueError "Could not find ARTICLE_LINK_MAP in config file"),
     {[ "zendesk.ts" := new_block ]}).
Proof.
  apply (update_in_sync_raises "zendesk.ts" new_entries
           {[ "zendesk.ts" := new_block ]} new_block ""
           {| Re.group1 := OPENING; Re.group2 := nl +:+ new_entries +:+ nl;
              Re.group3 := "} as const;" |} "").
  - vm_compute. reflexivity.
  - vm_compute. reflexivity.
  - reflexivity.
  - vm_compute. reflexivity.
  - apply search_None_iff. vm_compute. reflexivity.
Defined.

(** ** [fetch_file_with_sparse_checkout] and [main] *)

Lemma generate_for_Raise mapping_data e :
  generate_for mapping_data = Raise e -> exit_status (@Raise unit e) = 1.
Proof.
  destruct mapping_data as [members|type_name]; simpl; [|by intros [= <-]].
  unfold generate_article_link_map, files_items.
  destruct (members !! "files") as [[s|items]|]; [by intros [= <-]| |].
  - destruct (comparable _); [done|by intros [= <-]].
  - destruct (comparable _); [done|by intros [= <-]].
Qed.

Lemma patch_Ok_recognizable content g new :
  patch content g = Ok new -> recognizable pattern new.
Proof.
  intros (pre & tail & rest & _ & ->)%patch_Ok_shape.
  exists pre, (nl +:+ g +:+ nl), rest.
  change (Re.opening pattern) with OPENING.
  change (Re.closing pattern) with "} as const;". by rewrite !string_app_assoc.
Qed.

Section MainExtras.
Variables PROJECT_ROOT tmp_dir : string.
Variable run : list string -> option string.
Variable checked_out : string -> option contents.
Variable json_loads : string -> option parsed.

Let fetched : result parsed :=
  fetch_file_with_sparse_checkout tmp_dir run checked_out json_loads REPO_URL FILE_PATH BRANCH.
Let config : string := ZENDESK_CONFIG PROJECT_ROOT.
Let run_main : io unit := main PROJECT_ROOT tmp_dir run checked_out json_loads.

(** X7: when the git commands end with status 0 and the file of the
    working tree cannot be decoded, the [UnicodeDecodeError] of the fetch
    is none of the exceptions that [main] catches: the run ends with that
    exception, with status 1, and the file system is as it was. *)
Theorem main_undecodable_mapping fs content :
  fs !! config = Some content ->
  (forall args, run args = None) ->
  checked_out (tmp_dir +:+ "/" +:+ FILE_PATH) = Some Undecodable ->
  fetched = Raise UnicodeDecodeError /\
  run_main fs = (Raise UnicodeDecodeError, fs) /\
  exit_status (run_main fs).1 = 1.
Proof.
  intros Hc Hrun Hout.
  assert (fetched = Raise UnicodeDecodeError) as Hf.
  { unfold fetched, fetch_file_with_sparse_checkout, check_run.
    by rewrite !Hrun, Hout. }
  split; [done|]. unfold run_main.
  rewrite (main_present _ tmp_dir run checked_out json_loads _ _ Hc).
  fold fetched. by rewrite Hf.
Qed.

(** X8: when the destination file is missing, [main] ends with status 1
    whatever the remote is, and the file system is as it was. *)
Theorem main_missing_target fs :
  fs !! config = None ->
  run_main fs = (Raise (SystemExit 1), fs) /\ exit_status (run_main fs).1 = 1.
Proof.
  intros H. unfold run_main.
  by rewrite (main_missing _ tmp_dir run checked_out json_loads _ H).
Qed.


(** X10: the exit status of [main] is 0 or 1; when it is 0, the
    destination file has been written once, with a text that is another
    one than before and in which the strict form matches. *)
Theorem main_exit_status fs :
  (exit_status (run_main fs).1 = 0 \/ exit_status (run_main fs).1 = 1) /\
  (exit_status (run_main fs).1 = 0 ->
   exists content new,
     fs !! config = Some content /\ new <> content /\ recognizable pattern new /\
     run_main fs = (Ok tt, <[config := new]> fs)).
Proof.
  destruct (fs !! config) as [content|] eqn:Hc.
  - unfold run_main. rewrite (main_present _ tmp_dir run checked_out json_loads _ _ Hc).
    fold fetched config.
    destruct fetched as [data|e] eqn:Hf.
    + destruct (generate_for data) as [g|e] eqn:Hg.
      * destruct (patch content g) as [new|e] eqn:Hp; [|split; [by right|done]].
        split; [by left|]. intros _. exists content, new. repeat split.
        -- by apply patch_Ok_changes in Hp.
        -- by apply patch_Ok_recognizable in Hp.
      * apply generate_for_Raise in Hg. simpl in *. rewrite Hg. split; [by right|done].
    + destruct (fetch_raises tmp_dir run checked_out json_loads _ Hf) as [He | ->].
      * rewrite He. split; [by right|done].
      * split; [by right|done].
  - unfold run_main; rewrite (main_missing _ tmp_dir run checked_out json_loads _ Hc).
    split; [by right|done].
Qed.

(** X11: fetch, generation and patch together.  When the fetch returns a
    document for which the generation returns a block, and the destination
    has one region of the strict form whose body is not yet that block,
    [main] ends with status 0 and the destination is the old text with that
    region rewritten around the generated block. *)
Theorem main_end_to_end fs content data block pre m post :
  fs !! config = Some content ->
  fetched = Ok data ->
  generate_for data = Ok block ->
  Re.search pattern content = Some (pre, m, post) ->
  Re.search pattern post = None ->
  Re.group2 m <> nl +:+ block +:+ nl ->
  run_main fs =
    (Ok tt,
     <[config := pre +:+ OPENING +:+ nl +:+ block +:+ nl +:+ "} as const;" +:+ post]> fs) /\
  exit_status (run_main fs).1 = 0.
Proof.
  intros Hc Hf Hg Hs Hpost Hbody. unfold run_main.
  rewrite (main_present _ tmp_dir run checked_out json_loads _ _ Hc).
  fold fetched config. rewrite Hf, Hg.
  by rewrite (patch_single_block _ _ _ _ _ Hs Hpost Hbody).
Qed.

(** X12: when the value under [files] is a text and not a mapping, the
    [AttributeError] of the generation is caught by nothing: [main] ends
    with status 1 and the file system is as it was. *)
Theorem main_files_not_mapping fs content data s :
  fs !! config = Some content ->
  fetched = Ok (Object data) ->
  data !! "files" = Some (JStr s) ->
  run_main fs = (Raise (AttributeError "'str' object has no attribute 'items'"), fs) /\
  exit_status (run_main fs).1 = 1.
Proof.
  intros Hc Hf Hd. unfold run_main.
  rewrite (main_present _ tmp_dir run checked_out json_loads _ _ Hc).
  fold fetched config.
  rewrite Hf. unfold generate_for, generate_article_link_map, files_items. by rewrite Hd.
Qed.

End MainExtras.

Lemma main_undecodable_mapping_witness :
  fetch_file_with_sparse_checkout "/tmp/x" (fun _ => None) (fun _ => Some Undecodable)
    (fun _ => None) REPO_URL FILE_PATH BRANCH = Raise UnicodeDecodeError /\
  main "/repo" "/tmp/x" (fun _ => None) (fun _ => Some Undecodable) (fun _ => None)
    (repo_fs old_block) = (Raise UnicodeDecodeError, repo_fs old_block) /\
  exit_status
    (main "/repo" "/tmp/x" (fun _ => None) (fun _ => Some Undecodable) (fun _ => None)
       (repo_fs old_block)).1 = 1.
Proof.
  apply (main_undecodable_mapping "/repo" "/tmp/x" (fun _ => None)
           (fun _ => Some Undecodable) (fun _ => None) (repo_fs old_block) old_block).
  - vm_compute. reflexivity.
  - reflexivity.
  - reflexivity.
Defined.

Lemma main_missing_target_witness :
  main "/repo" "/tmp/x" (fun _ => None) (fun _ => Some (Text "{}"))
    (fun _ => Some (Object scenario_A_document)) ∅ = (Raise (SystemExit 1), ∅) /\
  exit_status
    (main "/repo" "/tmp/x" (fun _ => None) (fun _ => Some (Text "{}"))
       (fun _ => Some (Object scenario_A_document)) ∅).1 = 1.
Proof.
  apply (main_missing_target "/repo" "/tmp/x" (fun _ => None) (fun _ => Some (Text "{}"))
           (fun _ => Some (Object scenario_A_document)) ∅).
  reflexivity.
Defined.


Lemma main_exit_status_witness :
  exists content new,
    repo_fs old_block !! ZENDESK_CONFIG "/repo" = Some content /\
    new <> content /\ recognizable pattern new /\
    main "/repo" "/tmp/x" (fun _ => None) (fun _ => Some (Text "{}"))
      (fun _ => Some (Object scenario_A_document)) (repo_fs old_block) =
      (Ok tt, <[ZENDESK_CONFIG "/repo" := new]> (repo_fs old_block)).
Proof.
  apply (proj2 (main_exit_status "/repo" "/tmp/x" (fun _ => None)
                  (fun _ => Some (Text "{}"))
                  (fun _ => Some (Object scenario_A_document)) (repo_fs old_block))).
  vm_compute. reflexivity.
Defined.

Lemma main_end_to_end_witness :
  main "/repo" "/tmp/x" (fun _ => None) (fun _ => Some (Text "{}"))
    (fun _ => Some (Object scenario_A_document)) (repo_fs old_block) =
    (Ok tt,
     <[ZENDESK_CONFIG "/repo" :=
        "" +:+ OPENING +:+ nl +:+
        ("  '1001': '/guide/setup'," +:+ nl +:+ "  '1002': '/guide/faq'") +:+ nl +:+
        "} as const;" +:+ ""]> (repo_fs old_block)) /\
  exit_status
    (main "/repo" "/tmp/x" (fun _ => None) (fun _ => Some (Text "{}"))
       (fun _ => Some (Object scenario_A_document)) (repo_fs old_block)).1 = 0.
Proof.
  apply (main_end_to_end "/repo" "/tmp/x" (fun _ => None) (fun _ => Some (Text "{}"))
           (fun _ => Some (Object scenario_A_document)) (repo_fs old_block) old_block
           (Object scenario_A_document)
           ("  '1001': '/guide/setup'," +:+ nl +:+ "  '1002': '/guide/faq'") ""
           {| Re.group1 := OPENING; Re.group2 := nl +:+ "  '9': '/old'" +:+ nl;
              Re.group3 := "} as const;" |} "").
  - vm_compute. reflexivity.
  - reflexivity.
  - vm_compute. reflexivity.
  - vm_compute. reflexivity.
  - vm_compute. reflexivity.
  - apply String.eqb_neq. vm_compute. reflexivity.
Defined.

Lemma main_files_not_mapping_witness :
  main "/repo" "/tmp/x" (fun _ => None) (fun _ => Some (Text "{}"))
    (fun _ => Some (Object {[ "files" := JStr "none" ]})) (repo_fs old_block) =
    (Raise (AttributeError "'str' object has no attribute 'items'"), repo_fs old_block) /\
  exit_status
    (main "/repo" "/tmp/x" (fun _ => None) (fun _ => Some (Text "{}"))
       (fun _ => Some (Object {[ "files" := JStr "none" ]})) (repo_fs old_block)).1 = 1.
Proof.
  apply (main_files_not_mapping "/repo" "/tmp/x" (fun _ => None)
           (fun _ => Some (Text "{}"))
           (fun _ => Some (Object {[ "files" := JStr "none" ]})) (repo_fs old_block)
           old_block {[ "files" := JStr "none" ]} "none").
  - vm_compute. reflexivity.
  - reflexivity.
  - vm_compute. reflexivity.
Defined.

(** ** [generate_article_link_map] *)



Lemma article_map_Some items article_id path :
  article_map items !! article_id = Some path ->
  exists file_path, (file_path, article_id) ∈ items /\ path = target_path file_path.
Proof.
  intros H. rewrite article_map_foldl in H.
  by apply foldl_set_article_Some in H as [H|H].
Qed.

Lemma article_map_NoDup (items : list (string * ident)) file_path article_id :
  NoDup items.*2 -> (file_path, article_id) ∈ items ->
  article_map items !! article_id = Some (target_path file_path).
Proof.
  intros Hnd (l1 & l2 & ->)%list_elem_of_split. apply article_map_last.
  rewrite fmap_app, fmap_cons in Hnd. apply NoDup_app in Hnd as (_ & _ & Hnd).
  by apply NoDup_cons in Hnd as [? _].
Qed.









(** X16: when the article ids are distinct, the block does not depend on
    the order in which the document lists the files. *)
Theorem generate_order_independent mapping_data mapping_data' items items' :
  files_items mapping_data = Ok items ->
  files_items mapping_data' = Ok items' ->
  NoDup items.*2 ->
  items ≡ₚ items' ->
  generate_article_link_map mapping_data = generate_article_link_map mapping_data'.
Proof.
  intros H H' Hnd Hperm. unfold generate_article_link_map. rewrite H, H'.
  assert (NoDup items'.*2) as Hnd' by (by rewrite <- Hperm).
  assert (article_map items = article_map items') as E; [|by unfold sorted_items; rewrite E].
  apply map_eq. intros i. apply option_eq. intros v. split.
  - intros (p & Hin & ->)%article_map_Some. apply article_map_NoDup; [done|].
    by rewrite <- Hperm.
  - intros (p & Hin & ->)%article_map_Some. apply article_map_NoDup; [done|].
    by rewrite Hperm.
Qed.

Lemma generate_order_independent_witness :
  generate_article_link_map scenario_A_document =
  generate_article_link_map
    {[ "files" := JDict [("guide/faq.mdx", IStr "1002"); ("guide/setup.mdx", IStr "1001")] ]}.
Proof.
  apply (generate_order_independent scenario_A_document
           {[ "files" := JDict [("guide/faq.mdx", IStr "1002");
                                ("guide/setup.mdx", IStr "1001")] ]}
           scenario_A_files
           [("guide/faq.mdx", IStr "1002"); ("guide/setup.mdx", IStr "1001")]).
  - vm_compute. reflexivity.
  - vm_compute. reflexivity.
  - apply (bool_decide_unpack _). vm_compute. reflexivity.
  - apply perm_swap.
Defined.

Lemma mdx_no_straddle_app c s b :
  String.prefix ".mdx" (String c s) = false ->
  String.prefix ".mdx" (String c (s +:+ ".mdx" +:+ b)) = false.
Proof.
  destruct (decide (c = "."%char)) as [->|]; [|by rewrite !prefix_cons_ne].
  rewrite !prefix_cons_eq.
  destruct s as [|c1 s]; [intros _; cbn [String.append]; by rewrite prefix_cons_ne|].
  rewrite string_app_cons.
  destruct (decide (c1 = "m"%char)) as [->|]; [|by rewrite !prefix_cons_ne].
  rewrite !prefix_cons_eq.
  destruct s as [|c2 s]; [intros _; cbn [String.append]; by rewrite prefix_cons_ne|].
  rewrite string_app_cons.
  destruct (decide (c2 = "d"%char)) as [->|]; [|by rewrite !prefix_cons_ne].
  rewrite !prefix_cons_eq.
  destruct s as [|c3 s]; [intros _; cbn [String.append]; by rewrite prefix_cons_ne|].
  rewrite string_app_cons.
  destruct (decide (c3 = "x"%char)) as [->|]; [|by rewrite !prefix_cons_ne].
  rewrite !prefix_cons_eq. by destruct s.
Qed.

Lemma partition_mdx_app a b :
  partition ".mdx" a = None ->
  partition ".mdx" (a +:+ ".mdx" +:+ b) = Some (a, b).
Proof.
  induction a as [|c s IH].
  - intros _. change ("" +:+ ".mdx" +:+ b) with (".mdx" +:+ b).
    destruct (".mdx" +:+ b) eqn:E; [done|]. cbn [partition].
    by rewrite <- E, prefix_app, drop_app.
  - intros [Hp Hs]%partition_cons_None. rewrite string_app_cons. cbn [partition].
    by rewrite (mdx_no_straddle_app _ _ _ Hp), (IH Hs).
Qed.

(** X17: [replace] removes [.mdx] wherever it stands in the path, not only
    at its end: around one occurrence, with no other in the path, the two
    parts of the path are joined. *)
Theorem target_path_removes_inner_mdx a b :
  contains ".mdx" a = false ->
  contains ".mdx" b = false ->
  target_path (a +:+ ".mdx" +:+ b) = "/" +:+ a +:+ b.
Proof.
  intros Ha%contains_false Hb%contains_false. unfold target_path.
  rewrite (replace_Some _ _ mdx_nonempty _ _ _ (partition_mdx_app _ b Ha)).
  by rewrite (replace_None _ _ _ Hb).
Qed.

Lemma target_path_removes_inner_mdx_witness :
  target_path ("docs" +:+ ".mdx" +:+ "/readme.txt") = "/" +:+ "docs" +:+ "/readme.txt".
Proof.
  apply (target_path_removes_inner_mdx "docs" "/readme.txt"); vm_compute; reflexivity.
Defined.

(** ** A patch after a patch *)

Lemma drop_app_le n x y :
  n <= String.length x -> drop n (x +:+ y) = drop n x +:+ y.
Proof.
  revert x. induction n as [|n IH]; intros x Hn; [by destruct x|].
  destruct x as [|c x]; simpl in Hn; [lia|].
  rewrite string_app_cons. cbn [drop]. apply IH. lia.
Qed.

Lemma prefix_app_long p x y :
  String.length p <= String.length x -> String.prefix p (x +:+ y) = String.prefix p x.
Proof.
  revert x. induction p as [|a p IH]; intros x Hp.
  - by destruct x, y.
  - destruct x as [|c x]; simpl in Hp; [lia|]. rewrite string_app_cons.
    destruct (decide (c = a)) as [->|Hne].
    + rewrite !prefix_cons_eq. apply IH. lia.
    + by rewrite !prefix_cons_ne.
Qed.

(** When the first separator of [a +:+ sep] is the one at its end, it is
    also the first one of [a +:+ sep +:+ b]. *)
Lemma partition_app_first sep a b :
  partition sep (a +:+ sep) = Some (a, "") ->
  partition sep (a +:+ sep +:+ b) = Some (a, b).
Proof.
  induction a as [|c a IH].
  - intros _. change ("" +:+ sep +:+ b) with (sep +:+ b).
    destruct (sep +:+ b) eqn:E; cbn [partition]; by rewrite <- ?E, prefix_app, drop_app.
  - rewrite !string_app_cons. cbn [partition]. intros H.
    destruct (String.prefix sep (String c (a +:+ sep))) eqn:Hp; [done|].
    destruct (partition sep (a +:+ sep)) as [[b0 a0]|] eqn:Hs; [|done].
    injection H as -> ->.
    assert (String.prefix sep (String c (a +:+ sep +:+ b)) = false) as ->.
    { change (String c (a +:+ sep +:+ b)) with (String c a +:+ sep +:+ b).
      rewrite <- string_app_assoc, prefix_app_long; [by rewrite string_app_cons|].
      rewrite string_app_cons. simpl. rewrite string_length_app. lia. }
    by rewrite (IH eq_refl).
Qed.

Section SearchPrefix.
Variable p : Re.pattern.

(** No opening begins in the text before the leftmost match. *)
Lemma search_pre_no_opening s pre m post a b :
  Re.search p s = Some (pre, m, post) ->
  pre = a +:+ b -> b <> "" ->
  String.prefix (Re.opening p) (b +:+ Re.opening p) = false.
Proof.
  intros Hs -> Hb.
  destruct (String.prefix (Re.opening p) (b +:+ Re.opening p)) eqn:Hp; [|done].
  exfalso. pose proof Hs as (_ & _ & E)%search_sound.
  apply prefix_inv in Hp.
  assert (s = a +:+ Re.opening p +:+
              (drop (String.length (Re.opening p)) (b +:+ Re.opening p) +:+ Re.group2 m)
              +:+ Re.closing p +:+ post) as E'.
  { rewrite E, !string_app_assoc. f_equal.
    rewrite <- (string_app_assoc (Re.opening p) (drop _ _)), <- Hp.
    by rewrite !string_app_assoc. }
  pose proof (search_leftmost _ _ _ _ _ _ _ _ Hs E') as Hle.
  rewrite string_length_app in Hle. destruct b; [done|simpl in Hle; lia].
Qed.

(** The leftmost match of a text that has a match at the end of [pre] and
    no opening that begins in [pre]. *)
Lemma search_app_pre pre s1 body post :
  Re.match_at p s1 = Some (body, post) ->
  (forall a b, pre = a +:+ b -> b <> "" -> String.prefix (Re.opening p) (b +:+ s1) = false) ->
  Re.search p (pre +:+ s1) =
    Some (pre, {| Re.group1 := Re.opening p; Re.group2 := body;
                  Re.group3 := Re.closing p |}, post).
Proof.
  intros Hm. induction pre as [|c pre IH]; intros Hno.
  - change ("" +:+ s1) with s1. destruct s1; cbn [Re.search]; by rewrite Hm.
  - rewrite string_app_cons. cbn [Re.search].
    assert (Re.match_at p (String c (pre +:+ s1)) = None) as ->.
    { unfold Re.match_at.
      change (String c (pre +:+ s1)) with (String c pre +:+ s1).
      by rewrite (Hno "" (String c pre)). }
    rewrite IH; [done|]. intros a b -> Hb. by apply (Hno (String c a) b).
Qed.

End SearchPrefix.

(** X18: after a patch that rewrote the only region of the strict form,
    a second patch with other entries replaces the first ones as a whole:
    the text is the original one with the region rewritten around the
    second entries, provided the closing does not occur in the first
    entries. *)
Theorem patch_replaces_previous_entries content g g' pre m post :
  Re.search pattern content = Some (pre, m, post) ->
  Re.search pattern post = None ->
  Re.group2 m <> nl +:+ g +:+ nl ->
  partition "} as const;" ((nl +:+ g +:+ nl) +:+ "} as const;") = Some (nl +:+ g +:+ nl, "") ->
  g' <> g ->
  exists new,
    patch content g = Ok new /\
    patch new g' =
      Ok (pre +:+ OPENING +:+ nl +:+ g' +:+ nl +:+ "} as const;" +:+ post).
Proof.
  intros Hs Hpost Hbody Hfirst Hg.
  exists (pre +:+ OPENING +:+ nl +:+ g +:+ nl +:+ "} as const;" +:+ post).
  split; [by apply (patch_single_block _ _ _ m)|].
  set (m' := {| Re.group1 := OPENING; Re.group2 := nl +:+ g +:+ nl;
                Re.group3 := "} as const;" |}).
  apply (patch_single_block _ g' pre m' post); [|done|].
  - replace (pre +:+ OPENING +:+ nl +:+ g +:+ nl +:+ "} as const;" +:+ post)
      with (pre +:+ (OPENING +:+ (nl +:+ g +:+ nl) +:+ "} as const;" +:+ post))
      by (by rewrite !string_app_assoc).
    apply (search_app_pre pattern).
    + unfold Re.match_at. change (Re.opening pattern) with OPENING.
      change (Re.closing pattern) with "} as const;".
      rewrite prefix_app, drop_app. by apply partition_app_first.
    + intros a b Hpre Hb. change (Re.opening pattern) with OPENING.
      rewrite <- string_app_assoc, prefix_app_long.
      * by apply (search_pre_no_opening pattern content pre m post a b).
      * rewrite string_length_app. lia.
  - simpl. intros E. apply Hg.
    apply (inj (String.app nl)) in E. by apply string_app_inj_r in E.
Qed.

Lemma patch_replaces_previous_entries_witness :
  exists new,
    patch old_block "  '5': '/between'" = Ok new /\
    patch new new_entries =
      Ok ("" +:+ OPENING +:+ nl +:+ new_entries +:+ nl +:+ "} as const;" +:+ "").
Proof.
  apply (patch_replaces_previous_entries old_block "  '5': '/between'" new_entries ""
           {| Re.group1 := OPENING; Re.group2 := nl +:+ "  '9': '/old'" +:+ nl;
              Re.group3 := "} as const;" |} "").
  - vm_compute. reflexivity.
  - vm_compute. reflexivity.
  - apply String.eqb_neq. vm_compute. reflexivity.
  - vm_compute. reflexivity.
  - apply String.eqb_neq. vm_compute. reflexivity.
Defined.
